(** * A discrete-event simulation of a Markovian queueing system (pa1.py)

    Shallow embedding of [pa1.py]: the linear congruential generator
    ([Uniform]), the exponential sampler ([Exponential]), events, the
    queueing-system state machine ([MarkovianQueueingSystem]) and the event
    list of the driver ([Simulator]).

    Python methods mutate [self] and may raise; they are embedded as functions
    from a state to the state left behind paired with an outcome (a returned
    value or the exception raised), threaded by a small monad.  Python numbers
    (the [float] times and rates) are kept abstract behind the interface
    [PyNum]: every statement below holds for any interpretation of the
    arithmetic operators, exact or rounded. *)

From Stdlib Require Import ZArith List Bool Lia QArith Sorted Permutation.
Import ListNotations.
Local Open Scope Z_scope.

(** ** Python numbers *)

(** The operators of Python's numeric tower that the program applies to times
    and rates.  [fdiv] is the quotient for a non-zero divisor (the zero test
    that raises [ZeroDivisionError] is [is_zero]); [flog] is [math.log], which
    the program only applies to [seed / m] with [0 < seed < m]. *)
Class PyNum (num : Type) : Type := {
  of_int : Z -> num;
  f0 : num;
  half : num;
  fadd : num -> num -> num;
  fsub : num -> num -> num;
  fmul : num -> num -> num;
  fdiv : num -> num -> num;
  is_zero : num -> bool;
  flog : num -> num;
  fltb : num -> num -> bool;
  fgeb : num -> num -> bool
}.

(** [<] on the numbers used as times is a strict weak order: this is what
    [list.sort] needs of its keys, and holds of floats other than NaN. *)
Class TimeOrder (num : Type) `{PyNum num} : Prop := {
  fltb_irrefl : forall x : num, fltb x x = false;
  fltb_trans : forall x y z : num,
      fltb x y = true -> fltb y z = true -> fltb x z = true;
  fltb_split : forall x y z : num,
      fltb x y = true -> fltb x z = true \/ fltb z y = true
}.

(** ** Exceptions and the state-and-exception monad *)

Inductive exn : Type :=
| ValueError
| TypeError
| AssertionError
| IndexError
| ZeroDivisionError
| CustomerBlocked.   (* Exception("The customer is blocked.") *)

Inductive outcome (A : Type) : Type :=
| Return (a : A)
| Raise (x : exn).
Arguments Return {A} a.
Arguments Raise {A} x.

Definition M (S A : Type) : Type := S -> S * outcome A.

Definition ret {S A : Type} (a : A) : M S A := fun s => (s, Return a).

Definition raise {S A : Type} (x : exn) : M S A := fun s => (s, Raise x).

Definition bind {S A B : Type} (c : M S A) (k : A -> M S B) : M S B :=
  fun s =>
    match c s with
    | (s', Return a) => k a s'
    | (s', Raise x) => (s', Raise x)
    end.

Definition gets {S A : Type} (f : S -> A) : M S A := fun s => (s, Return (f s)).

Definition modify {S : Type} (f : S -> S) : M S unit := fun s => (f s, Return tt).

Declare Scope py_scope.
Delimit Scope py_scope with py.
Notation "x <- c ;; k" := (bind c (fun x => k))
  (at level 61, c at next level, right associativity) : py_scope.
Notation "c ;; k" := (bind c (fun _ => k))
  (at level 61, right associativity) : py_scope.
Local Open Scope py_scope.

(** [a / b] on Python numbers. *)
Definition py_div {num : Type} `{PyNum num} (a b : num) : outcome num :=
  if is_zero b then Raise ZeroDivisionError else Return (fdiv a b).

(** ** class Uniform *)

Module Uniform.

(** [self.k] and [self.m] are assigned once in [__init__] and never written
    again; they are constants of the model. *)
Definition k : Z := 16807.
Definition m : Z := 2147483647.

Record t : Type := { seed : Z }.

Definition init : t := {| seed := 1234 |}.

Section Call.
Context {num : Type} `{PyNum num}.

(** [self.seed = (self.k * self.seed) % self.m; return self.seed / self.m] *)
Definition call (u : t) : t * num :=
  let seed' := (k * seed u) mod m in
  ({| seed := seed' |}, fdiv (of_int seed') (of_int m)).
End Call.

End Uniform.

(** ** class Exponential *)

Module Exponential.

Section Def.
Context {num : Type} `{PyNum num}.

Record t : Type := { mu : num; uniform : Uniform.t }.

Definition init (mu0 : num) : t := {| mu := mu0; uniform := Uniform.init |}.

(** [return - 1 / self.mu * log(self.uniform())]: the quotient [-1 / mu]
    is evaluated first, so a zero rate raises before the generator is
    advanced. *)
Definition call (x : t) : t * outcome num :=
  match py_div (of_int (-1)) (mu x) with
  | Raise err => (x, Raise err)
  | Return c =>
      let (u', v) := Uniform.call (uniform x) in
      ({| mu := mu x; uniform := u' |}, Return (fmul c (flog v)))
  end.
End Def.
Arguments t num : clear implicits.

End Exponential.

(** ** class Event *)

Module Event.

(** The tag [t]: ['a'] or ['d']; the constructor raises [ValueError] on any
    other tag, so events carry one of exactly these two. *)
Inductive kind : Type := a | d.

Section Def.
Context {num : Type}.

Record event : Type := { t : kind; time : num; customer : Z }.

Definition init (t0 : kind) (time0 : num) (customer0 : Z) : event :=
  {| t := t0; time := time0; customer := customer0 |}.
End Def.
Arguments event num : clear implicits.

End Event.

(** ** class MarkovianQueueingSystem *)

Module MarkovianQueueingSystem.

(** [self.m = 2], never reassigned. *)
Definition m : Z := 2.

Section Def.
Context {num : Type} `{PyNum num}.

Record t : Type := {
    K : Z;
    mu : num;
    current_time : num;
    queue : list (Event.event num);
    _used_server : Z;
    _uniform : Uniform.t;
    _service_interval : Exponential.t num;
    total_operation_time : num;
    blocked_number : Z;
    total_time : num;
    expected_number : num;
    number_time_product_sum : num
  }.

(** [__init__]: all attributes are set ([fresh]), then [K < 2] raises. *)
Definition fresh (K0 : Z) (mu0 : num) : t :=
  {| K := K0; mu := mu0; current_time := f0; queue := [];
     _used_server := 0; _uniform := Uniform.init;
     _service_interval := Exponential.init mu0;
     total_operation_time := f0; blocked_number := 0;
     total_time := f0; expected_number := f0;
     number_time_product_sum := f0 |}.

Definition init (K0 : Z) (mu0 : num) : outcome t :=
  if K0 <? 2 then Raise ValueError else Return (fresh K0 mu0).

(** Attribute assignments. *)
Definition set_current_time (v : num) (s : t) : t :=
  {| K := K s; mu := mu s; current_time := v; queue := queue s;
     _used_server := _used_server s; _uniform := _uniform s;
     _service_interval := _service_interval s;
     total_operation_time := total_operation_time s;
     blocked_number := blocked_number s; total_time := total_time s;
     expected_number := expected_number s;
     number_time_product_sum := number_time_product_sum s |}.

Definition set_queue (v : list (Event.event num)) (s : t) : t :=
  {| K := K s; mu := mu s; current_time := current_time s; queue := v;
     _used_server := _used_server s; _uniform := _uniform s;
     _service_interval := _service_interval s;
     total_operation_time := total_operation_time s;
     blocked_number := blocked_number s; total_time := total_time s;
     expected_number := expected_number s;
     number_time_product_sum := number_time_product_sum s |}.

Definition set_used_server (v : Z) (s : t) : t :=
  {| K := K s; mu := mu s; current_time := current_time s; queue := queue s;
     _used_server := v; _uniform := _uniform s;
     _service_interval := _service_interval s;
     total_operation_time := total_operation_time s;
     blocked_number := blocked_number s; total_time := total_time s;
     expected_number := expected_number s;
     number_time_product_sum := number_time_product_sum s |}.

Definition set_uniform (v : Uniform.t) (s : t) : t :=
  {| K := K s; mu := mu s; current_time := current_time s; queue := queue s;
     _used_server := _used_server s; _uniform := v;
     _service_interval := _service_interval s;
     total_operation_time := total_operation_time s;
     blocked_number := blocked_number s; total_time := total_time s;
     expected_number := expected_number s;
     number_time_product_sum := number_time_product_sum s |}.

Definition set_service_interval (v : Exponential.t num) (s : t) : t :=
  {| K := K s; mu := mu s; current_time := current_time s; queue := queue s;
     _used_server := _used_server s; _uniform := _uniform s;
     _service_interval := v;
     total_operation_time := total_operation_time s;
     blocked_number := blocked_number s; total_time := total_time s;
     expected_number := expected_number s;
     number_time_product_sum := number_time_product_sum s |}.

Definition set_total_operation_time (v : num) (s : t) : t :=
  {| K := K s; mu := mu s; current_time := current_time s; queue := queue s;
     _used_server := _used_server s; _uniform := _uniform s;
     _service_interval := _service_interval s;
     total_operation_time := v;
     blocked_number := blocked_number s; total_time := total_time s;
     expected_number := expected_number s;
     number_time_product_sum := number_time_product_sum s |}.

Definition set_blocked_number (v : Z) (s : t) : t :=
  {| K := K s; mu := mu s; current_time := current_time s; queue := queue s;
     _used_server := _used_server s; _uniform := _uniform s;
     _service_interval := _service_interval s;
     total_operation_time := total_operation_time s;
     blocked_number := v; total_time := total_time s;
     expected_number := expected_number s;
     number_time_product_sum := number_time_product_sum s |}.

Definition set_total_time (v : num) (s : t) : t :=
  {| K := K s; mu := mu s; current_time := current_time s; queue := queue s;
     _used_server := _used_server s; _uniform := _uniform s;
     _service_interval := _service_interval s;
     total_operation_time := total_operation_time s;
     blocked_number := blocked_number s; total_time := v;
     expected_number := expected_number s;
     number_time_product_sum := number_time_product_sum s |}.

Definition set_number_time_product_sum (v : num) (s : t) : t :=
  {| K := K s; mu := mu s; current_time := current_time s; queue := queue s;
     _used_server := _used_server s; _uniform := _uniform s;
     _service_interval := _service_interval s;
     total_operation_time := total_operation_time s;
     blocked_number := blocked_number s; total_time := total_time s;
     expected_number := expected_number s;
     number_time_product_sum := v |}.

(** [@property customer_number] *)
Definition customer_number (s : t) : Z :=
  Z.of_nat (length (queue s)) + _used_server s.

(** [@property usable_server]: falls off the end of the [if]/[elif] and
    returns [None] when [customer_number > 2*K]. *)
Definition usable_server (s : t) : option Z :=
  if customer_number s <? K s then Some 1
  else if customer_number s <=? 2 * K s then Some m
  else None.

(** [@property idle_server]: [None - int] is a [TypeError]; the chained
    comparison of the [assert] reads [usable_server] again. *)
Definition idle_server (s : t) : outcome Z :=
  match usable_server s with
  | None => Raise TypeError
  | Some u =>
      let idle := u - _used_server s in
      if 0 <=? idle then
        match usable_server s with
        | None => Raise TypeError
        | Some u' => if idle <=? u' then Return idle else Raise AssertionError
        end
      else Raise AssertionError
  end.

(** [self._uniform()] *)
Definition draw_uniform : M t num :=
  fun s => let (u', v) := Uniform.call (_uniform s) in
           (set_uniform u' s, Return v).

(** [self._service_interval()] *)
Definition draw_service : M t num :=
  fun s => let (x', o) := Exponential.call (_service_interval s) in
           (set_service_interval x' s, o).

(** [self.queue.pop(0)] *)
Definition queue_pop0 : M t (Event.event num) :=
  fun s => match queue s with
           | [] => (s, Raise IndexError)
           | x :: rest => (set_queue rest s, Return x)
           end.

(** Lines 106-108 of [process_event]: the clock and the time-weighted
    customer count. *)
Definition advance_clock (e : Event.event num) : M t unit :=
  previous_time <- gets current_time ;;
  modify (set_current_time (Event.time e)) ;;
  s <- gets (fun s => s) ;;
  modify (set_number_time_product_sum
            (fadd (number_time_product_sum s)
                  (fmul (of_int (customer_number s))
                        (fsub (current_time s) previous_time)))).

(** [self.queue.append(e)] *)
Definition queue_append (e : Event.event num) : M t unit :=
  modify (fun s => set_queue (queue s ++ [e]) s).

(** [self.blocked_number += 1; raise Exception(...)] *)
Definition block : M t unit :=
  modify (fun s => set_blocked_number (blocked_number s + 1) s) ;;
  raise CustomerBlocked.

(** Lines 110-119: the arrival and departure transitions. *)
Definition update (e : Event.event num) : M t unit :=
  match Event.t e with
  | Event.a =>
      n <- gets customer_number ;;
      K0 <- gets K ;;
      if n <? K0 then queue_append e
      else
        n' <- gets customer_number ;;
        ok <- (if n' <? 2 * K0
               then v <- draw_uniform ;; ret (fgeb v half)
               else ret false) ;;
        if ok then queue_append e else block
  | Event.d =>
      modify (fun s => set_used_server (_used_server s - 1) s)
  end.

(** Lines 121-127: at most one waiting customer enters service. *)
Definition promote : M t (option (Event.event num)) :=
  n <- gets customer_number ;;
  go <- (if 0 <? n
         then idle <- (fun s => (s, idle_server s)) ;; ret (0 <? idle)
         else ret false) ;;
  if go then
    arrival_event <- queue_pop0 ;;
    operation_time <- draw_service ;;
    modify (fun s => set_total_operation_time
                       (fadd (total_operation_time s) operation_time) s) ;;
    modify (fun s => set_total_time
                       (fadd (fsub (current_time s) (Event.time arrival_event))
                             operation_time) s) ;;
    modify (fun s => set_used_server (_used_server s + 1) s) ;;
    cur <- gets current_time ;;
    ret (Some (Event.init Event.d (fadd cur operation_time)
                          (Event.customer arrival_event)))
  else ret None.

Definition process_event (e : Event.event num)
  : M t (option (Event.event num)) :=
  advance_clock e ;; update e ;; promote.

End Def.
Arguments t num : clear implicits.

End MarkovianQueueingSystem.

(** ** class Simulator *)

Module Simulator.

Section Def.
Context {num : Type} `{PyNum num}.

Record t : Type := {
    mqs : MarkovianQueueingSystem.t num;
    _lambda_ : num;
    _times : Z;
    _event_list : list (Event.event num);
    _arrival_interval : Exponential.t num
  }.

(** [__init__]: no attribute is inspected. *)
Definition init (mqs0 : MarkovianQueueingSystem.t num) (lambda_ : num)
           (times0 : Z) : t :=
  {| mqs := mqs0; _lambda_ := lambda_; _times := times0;
     _event_list := []; _arrival_interval := Exponential.init lambda_ |}.

(** [@property times] *)
Definition times (s : t) : Z := _times s.

(** [list.sort(key=lambda e: e.time)] is a stable sort that compares keys
    with [<] only.  It is modelled the way CPython sorts a short list:
    each element in turn is inserted into the sorted prefix, to the right
    of every element that is not greater than it. *)
Fixpoint insert_by_time (e : Event.event num) (l : list (Event.event num))
  : list (Event.event num) :=
  match l with
  | [] => [e]
  | y :: l' =>
      if fltb (Event.time e) (Event.time y) then e :: y :: l'
      else y :: insert_by_time e l'
  end.

Definition sort_by_time (l : list (Event.event num))
  : list (Event.event num) :=
  fold_left (fun acc e => insert_by_time e acc) l [].

(** [_append_event], on the event list. *)
Definition _append_event (l : list (Event.event num)) (e : Event.event num)
  : list (Event.event num) :=
  sort_by_time (l ++ [e]).

(** [self._event_list.pop(0)], on the event list. *)
Definition pop0 (l : list (Event.event num))
  : outcome (Event.event num * list (Event.event num)) :=
  match l with
  | [] => Raise IndexError
  | e :: rest => Return (e, rest)
  end.

(** The object and the local variables of [__call__]. *)
Record frame : Type := {
    self : t;
    total_number : Z;
    departure_event_number : Z
  }.

Definition set_event_list (l : list (Event.event num)) (s : t) : t :=
  {| mqs := mqs s; _lambda_ := _lambda_ s; _times := _times s;
     _event_list := l; _arrival_interval := _arrival_interval s |}.

Definition set_mqs (q : MarkovianQueueingSystem.t num) (s : t) : t :=
  {| mqs := q; _lambda_ := _lambda_ s; _times := _times s;
     _event_list := _event_list s;
     _arrival_interval := _arrival_interval s |}.

Definition set_arrival_interval (x : Exponential.t num) (s : t) : t :=
  {| mqs := mqs s; _lambda_ := _lambda_ s; _times := _times s;
     _event_list := _event_list s; _arrival_interval := x |}.

(** Lines 147-153 of [__call__]: the counters and the first arrival. *)
Definition start (s : t) : frame * outcome unit :=
  let (x', o) := Exponential.call (_arrival_interval s) in
  match o with
  | Raise err =>
      ({| self := set_arrival_interval x' s; total_number := 1;
          departure_event_number := 0 |}, Raise err)
  | Return v =>
      ({| self := set_event_list
                    (_append_event (_event_list s) (Event.init Event.a v 1))
                    (set_arrival_interval x' s);
          total_number := 1; departure_event_number := 0 |}, Return tt)
  end.

(** Lines 156-174: one pass through the body of the [while] loop.  The
    [except Exception] clause swallows whatever [process_event] raises;
    an event object is truthy and [None] is not; the [finally] clause
    schedules the next arrival.  Printing is left out. *)
Definition iteration (f : frame) : frame * outcome unit :=
  match pop0 (_event_list (self f)) with
  | Raise err => (f, Raise err)
  | Return (event, rest) =>
      let departures :=
        match Event.t event with
        | Event.d => departure_event_number f + 1
        | Event.a => departure_event_number f
        end in
      let (mqs', o) :=
        MarkovianQueueingSystem.process_event event (mqs (self f)) in
      let pending :=
        match o with
        | Return (Some departure_event) =>
            _append_event rest departure_event
        | _ => rest
        end in
      let s1 := set_event_list pending (set_mqs mqs' (self f)) in
      match Event.t event with
      | Event.d =>
          ({| self := s1; total_number := total_number f;
              departure_event_number := departures |}, Return tt)
      | Event.a =>
          let (x', v) := Exponential.call (_arrival_interval s1) in
          match v with
          | Raise err =>
              ({| self := set_arrival_interval x' s1;
                  total_number := total_number f + 1;
                  departure_event_number := departures |}, Raise err)
          | Return interval =>
              ({| self :=
                    set_event_list
                      (_append_event pending
                         (Event.init Event.a
                            (fadd (MarkovianQueueingSystem.current_time mqs')
                                  interval)
                            (total_number f + 1)))
                      (set_arrival_interval x' s1);
                  total_number := total_number f + 1;
                  departure_event_number := departures |}, Return tt)
          end
      end
  end.

(** The [while] loop, run for at most [fuel] passes: [None] when the fuel
    runs out before the loop ends. *)
Fixpoint loop (fuel : nat) (f : frame) : frame * option (outcome unit) :=
  match fuel with
  | O => (f, None)
  | S fuel' =>
      if departure_event_number f <? _times (self f) then
        match iteration f with
        | (f', Return _) => loop fuel' f'
        | (f', Raise err) => (f', Some (Raise err))
        end
      else (f, Some (Return tt))
  end.

(** The frames the loop passes through. *)
Inductive visits : frame -> Prop :=
  | visits_start : forall K0 mu0 q lambda_ times0 f o,
      MarkovianQueueingSystem.init K0 mu0 = Return q ->
      start (init q lambda_ times0) = (f, o) ->
      visits f
  | visits_iteration : forall f,
      visits f -> visits (fst (iteration f)).

(** Number of departure events in an event list. *)
Definition departures_in (l : list (Event.event num)) : Z :=
  Z.of_nat (length (filter (fun e => match Event.t e with
                                     | Event.d => true
                                     | Event.a => false
                                     end) l)).

End Def.
Arguments t num : clear implicits.
Arguments frame num : clear implicits.

End Simulator.

(** ** The script body *)

Section Main.
Context {num : Type} `{PyNum num}.

(** [MQS = MarkovianQueueingSystem(K, mu); SIMULATOR = Simulator(MQS, lambda_)] *)
Definition construct (K0 : Z) (mu0 lambda_ : num) (times0 : Z)
  : outcome (Simulator.t num) :=
  match MarkovianQueueingSystem.init K0 mu0 with
  | Raise x => Raise x
  | Return mqs0 => Return (Simulator.init mqs0 lambda_ times0)
  end.

(** [MQS.total_time / SIMULATOR.times] *)
Definition average_time (s : Simulator.t num) : outcome num :=
  if Simulator.times s =? 0 then Raise ZeroDivisionError
  else Return (fdiv (MarkovianQueueingSystem.total_time (Simulator.mqs s))
                    (of_int (Simulator.times s))).
End Main.

(** ** Reachable states *)

Section Reachability.
Context {num : Type} `{PyNum num}.

Import MarkovianQueueingSystem.

(** The state an object is left in by a call, whether the call returned or
    raised. *)
Definition after (s : t num) (e : Event.event num) : t num :=
  fst (process_event e s).

Definition result (s : t num) (e : Event.event num)
  : outcome (option (Event.event num)) :=
  snd (process_event e s).

(** States reached from a constructed object by feeding it any events. *)
Inductive reachable : t num -> Prop :=
  | reachable_init : forall K0 mu0 s,
      init K0 mu0 = Return s -> reachable s
  | reachable_step : forall s e,
      reachable s -> reachable (after s e).

(** The state after feeding a list of events in order. *)
Definition run (s : t num) (es : list (Event.event num)) : t num :=
  fold_left after es s.

(** Number of departure events a call hands back: 1 when it returned an
    event, 0 when it returned [None] or raised. *)
Definition returned (o : outcome (option (Event.event num))) : Z :=
  match o with
  | Return (Some _) => 1
  | _ => 0
  end.

(** States reached when departures are only fed back after they were
    handed out, as the driver's loop does: [driven s n] says that [s] is
    reached with [n] departure events returned and not yet fed back. *)
Inductive driven : t num -> Z -> Prop :=
  | driven_init : forall K0 mu0 s,
      init K0 mu0 = Return s -> driven s 0
  | driven_arrival : forall s n e,
      driven s n -> Event.t e = Event.a ->
      driven (after s e) (n + returned (result s e))
  | driven_departure : forall s n e,
      driven s n -> Event.t e = Event.d -> 0 < n ->
      driven (after s e) (n - 1 + returned (result s e)).

(** The idle-server bound, as the [assert] of [idle_server] states it. *)
Definition idle_bound (s : t num) : Prop :=
  exists u, usable_server s = Some u /\
            0 <= u - _used_server s <= u.

(** Lines 106-119 of [process_event], and the state they leave for the
    promotion of lines 121-127. *)
Definition transition (e : Event.event num) : M (t num) unit :=
  advance_clock e ;; update e.

Definition updated (s : t num) (e : Event.event num) : t num :=
  fst (transition e s).

(** The state after lines 106-108. *)
Definition clocked (s : t num) (e : Event.event num) : t num :=
  fst (advance_clock e s).

(** The service duration the next call of [self._service_interval()] yields. *)
Definition service_draw (s : t num) : outcome num :=
  snd (Exponential.call (_service_interval s)).

(** The sojourn time of the customer a call promotes: the clock minus the
    arrival time of the head of the waiting queue plus the duration drawn. *)
Definition sojourn (s : t num) (e : Event.event num) : option num :=
  match result s e with
  | Return (Some _) =>
      match queue (updated s e), service_draw (updated s e) with
      | arrival_event :: _, Return operation_time =>
          Some (fadd (fsub (current_time (updated s e))
                           (Event.time arrival_event)) operation_time)
      | _, _ => None
      end
  | _ => None
  end.

(** The sojourn time of the last promotion of a run, [d] when there is none. *)
Fixpoint last_sojourn (s : t num) (es : list (Event.event num)) (d : num)
  : num :=
  match es with
  | [] => d
  | e :: es' =>
      last_sojourn (after s e) es'
                   (match sojourn s e with Some v => v | None => d end)
  end.

(** The capacity invariant of every reachable state. *)
Definition capacity_inv (s : t num) : Prop :=
  2 <= K s /\ customer_number s <= 2 * K s.

(** The invariant of the driven states: the departures handed out and not
    yet fed back are the busy servers, at most two, and both are busy only
    when at least [K] customers are present. *)
Definition driven_inv (s : t num) (n : Z) : Prop :=
  2 <= K s /\ n = _used_server s /\ 0 <= _used_server s <= 2 /\
  customer_number s <= 2 * K s /\
  (_used_server s = 2 -> K s <= customer_number s).

End Reachability.

(** ** The outcomes of a promotion *)

Section Promotion.
Context {num : Type} `{PyNum num}.
Import MarkovianQueueingSystem.

(** The three ways [promote] ends. *)
Inductive promotion (s : t num)
  : t num -> outcome (option (Event.event num)) -> Prop :=
| promotion_none :
    (customer_number s <= 0 \/ idle_server s = Return 0) ->
    promotion s s (Return None)
| promotion_fault : forall x,
    0 < customer_number s ->
    (idle_server s = Raise x \/
     (exists idle, idle_server s = Return idle /\ 0 < idle) /\
     queue s = [] /\ x = IndexError) ->
    promotion s s (Raise x)
| promotion_no_rate : forall idle arrival_event rest,
    0 < customer_number s ->
    idle_server s = Return idle -> 0 < idle ->
    queue s = arrival_event :: rest ->
    Exponential.call (_service_interval s)
    = (_service_interval s, Raise ZeroDivisionError) ->
    promotion s (set_queue rest s) (Raise ZeroDivisionError)
| promotion_done : forall idle arrival_event rest x' operation_time,
    0 < customer_number s ->
    idle_server s = Return idle -> 0 < idle ->
    queue s = arrival_event :: rest ->
    Exponential.call (_service_interval s) = (x', Return operation_time) ->
    promotion s
      (set_used_server (_used_server s + 1)
         (set_total_time
            (fadd (fsub (current_time s) (Event.time arrival_event))
                  operation_time)
            (set_total_operation_time
               (fadd (total_operation_time s) operation_time)
               (set_service_interval x' (set_queue rest s)))))
      (Return (Some (Event.init Event.d
                       (fadd (current_time s) operation_time)
                       (Event.customer arrival_event)))).

End Promotion.

(** ** The event queue the specification describes *)

Module EventQueue.

Section Def.
Context {num : Type} `{PyNum num}.

(** Pending events, in the order they were inserted. *)
Definition pending : Type := list (Event.event num).

Definition insert (p : pending) (e : Event.event num) : pending := p ++ [e].

(** [earliest p e rest]: [e] is the pending event with the smallest time,
    the first inserted among those of equal time, and [rest] is what stays
    pending once it is extracted. *)
Definition earliest (p : pending) (e : Event.event num) (rest : pending)
  : Prop :=
  exists before later,
    p = before ++ e :: later /\ rest = before ++ later /\
    Forall (fun x => fltb (Event.time e) (Event.time x) = true) before /\
    Forall (fun x => fltb (Event.time x) (Event.time e) = false) later.

(** An event list in non-decreasing order of time. *)
Definition time_sorted (l : list (Event.event num)) : Prop :=
  StronglySorted
    (fun x y => fltb (Event.time y) (Event.time x) = false) l.

(** The driver's event list [l] holds the pending events [p]. *)
Definition holds (l : list (Event.event num)) (p : pending) : Prop :=
  l = Simulator.sort_by_time p.
End Def.

End EventQueue.

(** ** Exact rational arithmetic as an instance of the numeric interface *)

(** Used to evaluate the model on concrete inputs.  [math.log] is replaced by
    the rational function [2 (x - 1) / (x + 1)]. *)
#[export] Instance Q_num : PyNum Q := {|
  of_int := inject_Z;
  f0 := 0%Q;
  half := (1 # 2)%Q;
  fadd := Qplus;
  fsub := Qminus;
  fmul := Qmult;
  fdiv := Qdiv;
  is_zero := fun x => Qeq_bool x 0%Q;
  flog := fun x => Qred (((2 # 1) * (x - 1)) / (x + 1))%Q;
  fltb := fun x y => negb (Qle_bool y x);
  fgeb := fun x y => Qle_bool y x
|}.

(** ** Concrete systems and events *)

Module Sample.

(** [Event('a', time, customer)] and [Event('d', time, customer)]. *)
Definition arrival (time : Q) (customer : Z) : Event.event Q :=
  Event.init Event.a time customer.

Definition departure (time : Q) (customer : Z) : Event.event Q :=
  Event.init Event.d time customer.

(** Three arrivals, and a departure nobody was handed. *)
Definition first : Event.event Q := arrival (1 # 1) 1.
Definition second : Event.event Q := arrival (2 # 1) 2.
Definition third : Event.event Q := arrival (3 # 1) 3.
Definition stray : Event.event Q := departure (1 # 1) 1.

(** [MarkovianQueueingSystem(K=2, mu=3)], as constructed. *)
Definition mqs : MarkovianQueueingSystem.t Q :=
  MarkovianQueueingSystem.fresh 2 (3 # 1).

(** The same system after two arrivals: both servers busy, nobody waiting. *)
Definition busy : MarkovianQueueingSystem.t Q := run mqs [first; second].

(** A state with two customers waiting and no server busy, whose admission
    generator is about to yield a variate below 0.5 ([seed = 1234]) or above
    it ([seed = 100000]). *)
Definition waiting (seed : Z) : MarkovianQueueingSystem.t Q :=
  MarkovianQueueingSystem.set_uniform {| Uniform.seed := seed |}
    (MarkovianQueueingSystem.set_queue [first; second] mqs).

(** Events inserted at times 2, 1 and 1, in this order. *)
Definition inserted : list (Event.event Q) :=
  [arrival (2 # 1) 1; departure (1 # 1) 2; arrival (1 # 1) 3].

End Sample.

(** ** Runs of the generator, of the system and of the loop *)

Section Runs.
Context {num : Type} `{PyNum num}.
Import MarkovianQueueingSystem.

(** The generator after one more call, and after [n] calls from [__init__]. *)
Definition advance (u : Uniform.t) : Uniform.t := fst (Uniform.call u).

Definition calls (n : nat) : Uniform.t := Nat.iter n advance Uniform.init.

(** Number of arrival events in a list of events. *)
Definition arrivals_in (l : list (Event.event num)) : Z :=
  Z.of_nat (length (filter (fun e => match Event.t e with
                                     | Event.a => true
                                     | Event.d => false
                                     end) l)).

(** What a call appends to the waiting queue: the part of the queue left by
    lines 106-119 that lies beyond the queue the call found. *)
Definition entered (s : t num) (e : Event.event num)
  : list (Event.event num) :=
  skipn (length (queue s)) (queue (updated s e)).

(** What a call takes from the waiting queue: the front of the queue left by
    lines 106-119 that is gone when the call ends. *)
Definition taken (s : t num) (e : Event.event num)
  : list (Event.event num) :=
  firstn (length (queue (updated s e)) - length (queue (after s e)))
         (queue (updated s e)).

(** The same over a run, in order. *)
Fixpoint entered_run (s : t num) (es : list (Event.event num))
  : list (Event.event num) :=
  match es with
  | [] => []
  | e :: es' => entered s e ++ entered_run (after s e) es'
  end.

Fixpoint taken_run (s : t num) (es : list (Event.event num))
  : list (Event.event num) :=
  match es with
  | [] => []
  | e :: es' => taken s e ++ taken_run (after s e) es'
  end.

(** The customers a frame of the loop accounts for: those blocked, those
    present and those whose departure was fed. *)
Definition accounted (f : Simulator.frame num) : Z :=
  blocked_number (Simulator.mqs (Simulator.self f))
  + customer_number (Simulator.mqs (Simulator.self f))
  + Simulator.departure_event_number f.

End Runs.

(** ** A concrete simulation *)

Module Trial.

(** [MarkovianQueueingSystem(K=4, mu=3)], as the script constructs it. *)
Definition mqs : MarkovianQueueingSystem.t Q :=
  MarkovianQueueingSystem.fresh 4 (3 # 1).

(** The same system after two arrivals: one customer in service, one
    waiting. *)
Definition queued : MarkovianQueueingSystem.t Q :=
  after (after mqs Sample.first) Sample.second.

(** [Simulator(MQS, lambda_=3.6, times=3)] and the frame in which its loop
    starts. *)
Definition simulator : Simulator.t Q := Simulator.init mqs (18 # 5) 3.

Definition frame : Simulator.frame Q := fst (Simulator.start simulator).

(** An event list in order of time and an event to insert. *)
Definition listed : list (Event.event Q) :=
  [Sample.departure (1 # 1) 2; Sample.arrival (2 # 1) 1].

Definition late : Event.event Q := Sample.arrival (1 # 1) 3.

End Trial.

(** * Properties *)

(** ** The generator *)

(** The seed of a [Uniform] stays strictly between 0 and [m], so the variate
    [seed / m] handed to [math.log] is positive. *)
Lemma Uniform_seed_range (u : Uniform.t) :
  0 < Uniform.seed u < Uniform.m ->
  0 < (Uniform.k * Uniform.seed u) mod Uniform.m < Uniform.m.
Proof.
  intros Hs.
  assert (Hm : 0 < Uniform.m) by reflexivity.
  pose proof (Z.mod_pos_bound (Uniform.k * Uniform.seed u) Uniform.m Hm) as Hb.
  assert (Hnz : (Uniform.k * Uniform.seed u) mod Uniform.m <> 0).
  { intros Hz.
    apply Z.mod_divide in Hz; [|discriminate].
    apply Z.gauss in Hz; [|reflexivity].
    apply Z.divide_pos_le in Hz; lia. }
  lia.
Qed.

Lemma Uniform_init_range : 0 < Uniform.seed Uniform.init < Uniform.m.
Proof. split; reflexivity. Qed.

(** ** Unfolding [process_event] *)

Section Unfolding.
Context {num : Type} `{PyNum num}.
Import MarkovianQueueingSystem.

Lemma process_event_phases (e : Event.event num) (s : t num) :
  process_event e s =
  match transition e s with
  | (s2, Return _) => promote s2
  | (s2, Raise x) => (s2, Raise x)
  end.
Proof.
  unfold process_event, transition, bind.
  destruct (advance_clock e s) as [s1 [[]|x]]; [|reflexivity].
  destruct (update e s1) as [s2 [[]|x]]; reflexivity.
Qed.

Lemma clocked_eq (s : t num) (e : Event.event num) :
  advance_clock e s =
  (set_number_time_product_sum
     (fadd (number_time_product_sum s)
           (fmul (of_int (customer_number s))
                 (fsub (Event.time e) (current_time s))))
     (set_current_time (Event.time e) s), Return tt).
Proof. reflexivity. Qed.

Lemma promote_eq (s : t num) :
  promote s =
  if 0 <? customer_number s then
    match idle_server s with
    | Raise x => (s, Raise x)
    | Return idle =>
        if 0 <? idle then
          match queue s with
          | [] => (s, Raise IndexError)
          | arrival_event :: rest =>
              match Exponential.call (_service_interval s) with
              | (x', Raise err) =>
                  (set_service_interval x' (set_queue rest s), Raise err)
              | (x', Return operation_time) =>
                  (set_used_server (_used_server s + 1)
                     (set_total_time
                        (fadd (fsub (current_time s) (Event.time arrival_event))
                              operation_time)
                        (set_total_operation_time
                           (fadd (total_operation_time s) operation_time)
                           (set_service_interval x' (set_queue rest s)))),
                   Return (Some (Event.init Event.d
                                   (fadd (current_time s) operation_time)
                                   (Event.customer arrival_event))))
              end
          end
        else (s, Return None)
    end
  else (s, Return None).
Proof.
  unfold promote, bind, gets, ret.
  destruct (0 <? customer_number s); [|reflexivity].
  destruct (idle_server s) as [idle|x]; [|reflexivity].
  destruct (0 <? idle); [|reflexivity].
  unfold queue_pop0, draw_service, modify.
  destruct (queue s) as [|arrival_event rest]; [reflexivity|].
  cbn [queue _service_interval set_queue].
  destruct (Exponential.call (_service_interval s)) as [x' [dur|err]];
    reflexivity.
Qed.

Lemma transition_eq (e : Event.event num) (s : t num) :
  transition e s =
  match Event.t e with
  | Event.d =>
      (set_used_server (_used_server s - 1) (clocked s e), Return tt)
  | Event.a =>
      if customer_number s <? K s then
        (set_queue (queue s ++ [e]) (clocked s e), Return tt)
      else if customer_number s <? 2 * K s then
        if fgeb (snd (Uniform.call (_uniform s))) half then
          (set_queue (queue s ++ [e])
             (set_uniform (fst (Uniform.call (_uniform s))) (clocked s e)),
           Return tt)
        else
          (set_blocked_number (blocked_number s + 1)
             (set_uniform (fst (Uniform.call (_uniform s))) (clocked s e)),
           Raise CustomerBlocked)
      else
        (set_blocked_number (blocked_number s + 1) (clocked s e),
         Raise CustomerBlocked)
  end.
Proof.
  unfold transition, clocked, bind. rewrite clocked_eq. cbn [fst].
  set (s1 := set_number_time_product_sum _ _).
  assert (Hn : customer_number s1 = customer_number s) by reflexivity.
  assert (HK : K s1 = K s) by reflexivity.
  assert (Hu : _uniform s1 = _uniform s) by reflexivity.
  assert (Hq : queue s1 = queue s) by reflexivity.
  assert (Hb : blocked_number s1 = blocked_number s) by reflexivity.
  assert (Hs : _used_server s1 = _used_server s) by reflexivity.
  clearbody s1.
  unfold update.
  cbv beta iota delta [bind gets modify queue_append block raise draw_uniform ret].
  destruct (Event.t e); [|rewrite Hs; reflexivity].
  rewrite Hn, HK.
  destruct (customer_number s <? K s);
    cbv beta iota; [rewrite Hq; reflexivity|].
  rewrite Hn.
  destruct (customer_number s <? 2 * K s);
    cbv beta iota; [|rewrite Hb; reflexivity].
  rewrite Hu.
  destruct (Uniform.call (_uniform s)) as [u' v]. cbn [fst snd].
  destruct (fgeb v half).
  - cbn [queue set_uniform]. rewrite Hq. reflexivity.
  - cbn [blocked_number set_uniform]. rewrite Hb. reflexivity.
Qed.

End Unfolding.

(** Reading an attribute of a state built by assignments. *)
Ltac fields :=
  unfold clocked; rewrite ?clocked_eq;
  cbn [fst snd
       MarkovianQueueingSystem.K MarkovianQueueingSystem.mu
       MarkovianQueueingSystem.current_time MarkovianQueueingSystem.queue
       MarkovianQueueingSystem._used_server MarkovianQueueingSystem._uniform
       MarkovianQueueingSystem._service_interval
       MarkovianQueueingSystem.total_operation_time
       MarkovianQueueingSystem.blocked_number
       MarkovianQueueingSystem.total_time
       MarkovianQueueingSystem.expected_number
       MarkovianQueueingSystem.number_time_product_sum
       MarkovianQueueingSystem.set_current_time
       MarkovianQueueingSystem.set_queue
       MarkovianQueueingSystem.set_used_server
       MarkovianQueueingSystem.set_uniform
       MarkovianQueueingSystem.set_service_interval
       MarkovianQueueingSystem.set_total_operation_time
       MarkovianQueueingSystem.set_blocked_number
       MarkovianQueueingSystem.set_total_time
       MarkovianQueueingSystem.set_number_time_product_sum].

(** ** What a call changes *)

Section Calls.
Context {num : Type} `{PyNum num}.
Import MarkovianQueueingSystem.

Lemma after_eq (s : t num) (e : Event.event num) :
  after s e =
  match transition e s with
  | (s2, Return _) => fst (promote s2)
  | (s2, Raise _) => s2
  end.
Proof.
  unfold after. rewrite process_event_phases.
  destruct (transition e s) as [s2 [[]|x]]; reflexivity.
Qed.

Lemma result_eq (s : t num) (e : Event.event num) :
  result s e =
  match transition e s with
  | (s2, Return _) => snd (promote s2)
  | (_, Raise x) => Raise x
  end.
Proof.
  unfold result. rewrite process_event_phases.
  destruct (transition e s) as [s2 [[]|x]]; reflexivity.
Qed.

Lemma idle_server_raises (s : t num) (x : exn) :
  idle_server s = Raise x -> x = TypeError \/ x = AssertionError.
Proof.
  unfold idle_server.
  destruct (usable_server s) as [u|]; [|intros [= <-]; now left].
  destruct (0 <=? u - _used_server s); [|intros [= <-]; now right].
  destruct (u - _used_server s <=? u); [discriminate|intros [= <-]; now right].
Qed.

Lemma idle_server_returns (s : t num) (idle : Z) :
  idle_server s = Return idle ->
  exists u, usable_server s = Some u /\ idle = u - _used_server s /\
            0 <= idle <= u.
Proof.
  unfold idle_server.
  destruct (usable_server s) as [u|]; [|discriminate].
  destruct (0 <=? u - _used_server s) eqn:H0; [|discriminate].
  destruct (u - _used_server s <=? u) eqn:H1; [|discriminate].
  intros [= <-]. exists u. repeat split; lia.
Qed.

Lemma Exponential_call_raises (x x' : Exponential.t num) (err : exn) :
  Exponential.call x = (x', Raise err) -> x' = x /\ err = ZeroDivisionError.
Proof.
  unfold Exponential.call, py_div.
  destruct (is_zero (Exponential.mu x)).
  - intros [= <- <-]. now split.
  - destruct (Uniform.call (Exponential.uniform x)). discriminate.
Qed.

Lemma Exponential_call_returns (x x' : Exponential.t num) (v : num) :
  Exponential.call x = (x', Return v) ->
  is_zero (Exponential.mu x) = false /\
  Exponential.mu x' = Exponential.mu x /\
  Exponential.uniform x' = fst (Uniform.call (num := num) (Exponential.uniform x)) /\
  v = fmul (fdiv (of_int (-1)) (Exponential.mu x))
           (flog (snd (Uniform.call (Exponential.uniform x)))).
Proof.
  unfold Exponential.call, py_div.
  destruct (is_zero (Exponential.mu x)); [discriminate|].
  destruct (Uniform.call (Exponential.uniform x)) as [u' w] eqn:Hu.
  intros [= <- <-]. cbn. now repeat split.
Qed.

Lemma promote_promotion (s : t num) :
  promotion s (fst (promote s)) (snd (promote s)).
Proof.
  rewrite promote_eq.
  destruct (0 <? customer_number s) eqn:Hn.
  2:{ cbn. apply promotion_none. left. lia. }
  apply Z.ltb_lt in Hn.
  destruct (idle_server s) as [idle|x] eqn:Hi.
  2:{ cbn. apply promotion_fault; auto. }
  destruct (0 <? idle) eqn:Hpos.
  2:{ cbn. apply promotion_none. right.
      apply idle_server_returns in Hi as Hi'.
      destruct Hi' as (u & _ & _ & Hr).
      assert (idle = 0) by lia. subst idle. exact Hi. }
  apply Z.ltb_lt in Hpos.
  destruct (queue s) as [|arrival_event rest] eqn:Hq.
  { cbn. apply promotion_fault; auto. right. repeat split; eauto. }
  destruct (Exponential.call (_service_interval s)) as [x' [dur|err]] eqn:Hc.
  - cbn [fst snd]. eapply promotion_done; eauto.
  - cbn [fst snd].
    apply Exponential_call_raises in Hc as Hc'. destruct Hc' as [-> ->].
    assert (Hid : set_service_interval (_service_interval s) (set_queue rest s)
                  = set_queue rest s) by reflexivity.
    rewrite Hid. eapply promotion_no_rate; eauto.
Qed.

End Calls.

(** ** Admission, blocking and promotion *)

Section Admission.
Context {num : Type} `{PyNum num}.
Import MarkovianQueueingSystem.

Lemma promotion_frame (s s' : t num) (o : outcome (option (Event.event num))) :
  promotion s s' o ->
  K s' = K s /\ mu s' = mu s /\ _uniform s' = _uniform s /\
  blocked_number s' = blocked_number s /\
  current_time s' = current_time s /\
  number_time_product_sum s' = number_time_product_sum s /\
  o <> Raise CustomerBlocked.
Proof.
  destruct 1 as [Hn | x Hn Hx | | ]; fields; repeat split; try discriminate.
  destruct Hx as [Hx | (_ & _ & ->)]; [|discriminate].
  apply idle_server_raises in Hx. destruct Hx as [-> | ->]; discriminate.
Qed.

(** What a call does once its transition returned. *)
Lemma call_promotes (s s2 : t num) (e : Event.event num) :
  transition e s = (s2, Return tt) ->
  updated s e = s2 /\ promotion s2 (after s e) (result s e).
Proof.
  intros Ht. unfold updated. rewrite after_eq, result_eq, Ht. cbn [fst].
  split; [reflexivity|apply promote_promotion].
Qed.

(** What a call does once its transition raised. *)
Lemma call_raises (s s2 : t num) (e : Event.event num) (x : exn) :
  transition e s = (s2, Raise x) ->
  updated s e = s2 /\ after s e = s2 /\ result s e = Raise x.
Proof.
  intros Ht. unfold updated. rewrite after_eq, result_eq, Ht. now cbn.
Qed.

(** C2.  An arrival that finds fewer than [K] customers is appended to the
    waiting queue and the admission generator is not advanced; one that finds
    at least [K] and fewer than [2K] advances the generator exactly once and
    is appended when the variate is at least 0.5, blocked otherwise; one that
    finds [2K] or more is blocked and the generator is not advanced.  A
    blocked arrival adds exactly one to [blocked_number].  ([K] is at least 2
    in every constructed system.) *)
Theorem arrival_admission (s : t num) (e : Event.event num) :
  2 <= K s ->
  Event.t e = Event.a ->
  (customer_number s < K s ->
   queue (updated s e) = queue s ++ [e] /\
   _uniform (after s e) = _uniform s /\
   blocked_number (after s e) = blocked_number s /\
   result s e <> Raise CustomerBlocked) /\
  (K s <= customer_number s < 2 * K s ->
   _uniform (after s e) = fst (Uniform.call (num := num) (_uniform s)) /\
   (fgeb (snd (Uniform.call (_uniform s))) half = true ->
    queue (updated s e) = queue s ++ [e] /\
    blocked_number (after s e) = blocked_number s /\
    result s e <> Raise CustomerBlocked) /\
   (fgeb (snd (Uniform.call (_uniform s))) half = false ->
    queue (updated s e) = queue s /\
    blocked_number (after s e) = blocked_number s + 1 /\
    result s e = Raise CustomerBlocked)) /\
  (2 * K s <= customer_number s ->
   _uniform (after s e) = _uniform s /\
   queue (updated s e) = queue s /\
   blocked_number (after s e) = blocked_number s + 1 /\
   result s e = Raise CustomerBlocked) /\
  (result s e = Raise CustomerBlocked ->
   blocked_number (after s e) = blocked_number s + 1).
Proof.
  intros HK He.
  pose proof (transition_eq e s) as Ht. rewrite He in Ht.
  destruct (customer_number s <? K s) eqn:H1.
  { apply Z.ltb_lt in H1.
    apply call_promotes in Ht. destruct Ht as [Hu Hp].
    apply promotion_frame in Hp.
    destruct Hp as (_ & _ & Hun & Hbl & _ & _ & Hne).
    rewrite Hun, Hbl, Hu. fields.
    repeat split; intros; try lia; try assumption; try reflexivity;
      contradiction. }
  apply Z.ltb_ge in H1.
  destruct (customer_number s <? 2 * K s) eqn:H2.
  - apply Z.ltb_lt in H2.
    destruct (fgeb (snd (Uniform.call (_uniform s))) half) eqn:Hv.
    + apply call_promotes in Ht. destruct Ht as [Hu Hp].
      apply promotion_frame in Hp.
      destruct Hp as (_ & _ & Hun & Hbl & _ & _ & Hne).
      rewrite Hun, Hbl, Hu. fields.
      repeat split; intros; try lia; try assumption; try reflexivity;
        try discriminate; contradiction.
    + apply call_raises in Ht. destruct Ht as (Hu & Ha & Hr).
      rewrite Ha, Hr, Hu. fields.
      repeat split; intros; try lia; try reflexivity; discriminate.
  - apply Z.ltb_ge in H2.
    apply call_raises in Ht. destruct Ht as (Hu & Ha & Hr).
    rewrite Ha, Hr, Hu. fields.
    repeat split; intros; try lia; reflexivity.
Qed.

End Admission.

Section Promotion_facts.
Context {num : Type} `{PyNum num}.
Import MarkovianQueueingSystem.

(** Attributes the transition of lines 106-119 sets the same way in all of
    its branches. *)
Lemma transition_frame (s : t num) (e : Event.event num) :
  K (updated s e) = K s /\ mu (updated s e) = mu s /\
  current_time (updated s e) = Event.time e /\
  number_time_product_sum (updated s e)
  = fadd (number_time_product_sum s)
         (fmul (of_int (customer_number s))
               (fsub (Event.time e) (current_time s))) /\
  _service_interval (updated s e) = _service_interval s /\
  total_operation_time (updated s e) = total_operation_time s /\
  total_time (updated s e) = total_time s.
Proof.
  unfold updated. rewrite transition_eq.
  destruct (Event.t e); [|fields; now repeat split].
  destruct (customer_number s <? K s); [fields; now repeat split|].
  destruct (customer_number s <? 2 * K s); [|fields; now repeat split].
  destruct (fgeb _ half); fields; now repeat split.
Qed.

(** Either the transition returns, and the call ends as its promotion does,
    or it raises [CustomerBlocked] and the call ends there. *)
Lemma call_cases (s : t num) (e : Event.event num) :
  promotion (updated s e) (after s e) (result s e) \/
  (Event.t e = Event.a /\ after s e = updated s e /\
   result s e = Raise CustomerBlocked /\
   queue (updated s e) = queue s /\
   _used_server (updated s e) = _used_server s /\
   blocked_number (updated s e) = blocked_number s + 1).
Proof.
  destruct (transition e s) as [s2 [[]|x]] eqn:Ht.
  - left. apply call_promotes in Ht. destruct Ht as [-> Hp]. exact Hp.
  - right. pose proof Ht as Hr. apply call_raises in Hr.
    destruct Hr as (Hu & Ha & Hr). rewrite Ha, Hr, Hu.
    rewrite transition_eq in Ht.
    destruct (Event.t e); [|discriminate].
    destruct (customer_number s <? K s); [discriminate|].
    destruct (customer_number s <? 2 * K s).
    + destruct (fgeb _ half); [discriminate|].
      injection Ht as <- <-. fields. now repeat split.
    + injection Ht as <- <-. fields. now repeat split.
Qed.

(** C3.  A call moves at most one waiting customer into service and, by its
    return type, hands back at most one departure event, however many servers
    are idle.  When it returns a departure event, the customer taken is the
    head of the waiting queue, the service generator is advanced exactly once,
    the duration drawn is added to [total_operation_time], [_used_server]
    grows by one, and the event carries the customer of the head with time
    the clock plus the duration.  When it returns [None] nothing was promoted. *)
Theorem single_promotion (s : t num) (e : Event.event num) :
  _used_server (updated s e) <= _used_server (after s e)
    <= _used_server (updated s e) + 1 /\
  (length (queue (updated s e)) <= S (length (queue (after s e))))%nat /\
  match result s e with
  | Return (Some dep) =>
      exists arrival_event rest operation_time,
        queue (updated s e) = arrival_event :: rest /\
        queue (after s e) = rest /\
        service_draw (updated s e) = Return operation_time /\
        Exponential.uniform (_service_interval (after s e))
        = fst (Uniform.call (num := num)
                 (Exponential.uniform (_service_interval (updated s e)))) /\
        total_operation_time (after s e)
        = fadd (total_operation_time (updated s e)) operation_time /\
        _used_server (after s e) = _used_server (updated s e) + 1 /\
        current_time (after s e) = Event.time e /\
        dep = Event.init Event.d (fadd (Event.time e) operation_time)
                         (Event.customer arrival_event)
  | Return None => after s e = updated s e
  | Raise _ => _used_server (after s e) = _used_server (updated s e)
  end.
Proof.
  pose proof (transition_frame s e) as (_ & _ & Hct & _).
  destruct (call_cases s e) as [Hp | (_ & Ha & Hr & _)].
  2:{ rewrite Ha, Hr. repeat split; lia. }
  inversion Hp as [Hn Hs Ho | x Hn Hx Hs Ho
                   | idle a0 rest Hn Hi Hpos Hq Hc Hs Ho
                   | idle a0 rest x' dur Hn Hi Hpos Hq Hc Hs Ho].
  - repeat split; lia.
  - repeat split; lia.
  - fields. rewrite Hq. cbn [length]. repeat split; lia.
  - fields. rewrite Hq. cbn [length]. repeat split; try lia.
    exists a0, rest, dur.
    apply Exponential_call_returns in Hc as Hc'.
    destruct Hc' as (_ & _ & Hun & _).
    unfold service_draw. rewrite Hc, Hct. now repeat split.
Qed.

End Promotion_facts.

(** ** Blocking and the sojourn statistic *)

Section Statistics.
Context {num : Type} `{PyNum num}.
Import MarkovianQueueingSystem.

(** C10.  A call that raises [CustomerBlocked] was given an arrival; it
    leaves the waiting queue, [_used_server], the service generator and the
    service statistics as they were (so nobody was promoted, and no event is
    returned since the call raised), after setting the clock, adding to the
    time-weighted customer count and adding one to [blocked_number]. *)
Theorem blocked_arrival_frame (s : t num) (e : Event.event num) :
  result s e = Raise CustomerBlocked ->
  Event.t e = Event.a /\
  queue (after s e) = queue s /\
  _used_server (after s e) = _used_server s /\
  _service_interval (after s e) = _service_interval s /\
  total_operation_time (after s e) = total_operation_time s /\
  total_time (after s e) = total_time s /\
  current_time (after s e) = Event.time e /\
  number_time_product_sum (after s e)
  = fadd (number_time_product_sum s)
         (fmul (of_int (customer_number s))
               (fsub (Event.time e) (current_time s))) /\
  blocked_number (after s e) = blocked_number s + 1.
Proof.
  intros Hr.
  pose proof (transition_frame s e) as (_ & _ & Hct & Hnp & Hsi & Hto & Htt).
  destruct (call_cases s e) as [Hp | (He & Ha & _ & Hq & Hu & Hb)].
  - apply promotion_frame in Hp. destruct Hp as (_ & _ & _ & _ & _ & _ & Hne).
    contradiction.
  - rewrite Ha. now repeat split.
Qed.

(** The sojourn time a call leaves in [total_time]. *)
Lemma total_time_after (s : t num) (e : Event.event num) :
  match result s e with
  | Return (Some _) =>
      exists arrival_event rest operation_time,
        queue (updated s e) = arrival_event :: rest /\
        service_draw (updated s e) = Return operation_time /\
        total_time (after s e)
        = fadd (fsub (Event.time e) (Event.time arrival_event)) operation_time
  | _ => total_time (after s e) = total_time s
  end.
Proof.
  pose proof (transition_frame s e) as (_ & _ & Hct & _ & _ & _ & Htt).
  destruct (call_cases s e) as [Hp | (_ & Ha & Hr & _)].
  2:{ rewrite Ha, Hr. exact Htt. }
  inversion Hp as [Hn Hs Ho | x Hn Hx Hs Ho
                   | idle a0 rest Hn Hi Hpos Hq Hc Hs Ho
                   | idle a0 rest x' dur Hn Hi Hpos Hq Hc Hs Ho];
    fields; try exact Htt.
  exists a0, rest, dur. unfold service_draw. rewrite Hc, Hct. now repeat split.
Qed.

Lemma total_time_sojourn (s : t num) (e : Event.event num) :
  total_time (after s e)
  = match sojourn s e with Some v => v | None => total_time s end.
Proof.
  pose proof (total_time_after s e) as Ht.
  pose proof (transition_frame s e) as (_ & _ & Hct & _).
  unfold sojourn.
  destruct (result s e) as [[dep|]|x]; try exact Ht.
  destruct Ht as (a0 & rest & dur & Hq & Hd & Ht).
  rewrite Hq, Hd, Hct. exact Ht.
Qed.

Lemma total_time_run (es : list (Event.event num)) :
  forall s : t num, total_time (run s es) = last_sojourn s es (total_time s).
Proof.
  induction es as [|e es IH]; intros s; [reflexivity|].
  cbn [run fold_left last_sojourn].
  rewrite <- total_time_sojourn. apply IH.
Qed.

(** C5.  A call that promotes a customer assigns to [total_time] the clock
    minus the arrival time of the customer taken plus the duration drawn,
    whatever [total_time] held; any other call leaves [total_time] alone.  So
    after a run [total_time] is the sojourn time of the last promotion only,
    and the reported average is that value divided by [times]. *)
Theorem last_sojourn_only :
  (forall (s : t num) (e : Event.event num),
      match result s e with
      | Return (Some _) =>
          exists arrival_event rest operation_time,
            queue (updated s e) = arrival_event :: rest /\
            service_draw (updated s e) = Return operation_time /\
            total_time (after s e)
            = fadd (fsub (Event.time e) (Event.time arrival_event))
                   operation_time
      | _ => total_time (after s e) = total_time s
      end) /\
  (forall (s : t num) (es : list (Event.event num)),
      total_time (run s es) = last_sojourn s es (total_time s)) /\
  (forall sim : Simulator.t num,
      average_time sim
      = if Simulator.times sim =? 0 then Raise ZeroDivisionError
        else Return (fdiv (total_time (Simulator.mqs sim))
                          (of_int (Simulator.times sim)))).
Proof.
  split; [exact total_time_after|].
  split; [intros s es; apply total_time_run|].
  reflexivity.
Qed.

End Statistics.

(** ** Counting customers *)

Section Counting.
Context {num : Type} `{PyNum num}.
Import MarkovianQueueingSystem.

Lemma customer_number_pop (s : t num) (x : Event.event num)
      (rest : list (Event.event num)) :
  queue s = x :: rest ->
  customer_number (set_queue rest s) = customer_number s - 1.
Proof.
  intros Hq. unfold customer_number. fields. rewrite Hq. cbn [length]. lia.
Qed.

(** How the transition of lines 106-119 moves the two counters. *)
Lemma transition_count (s : t num) (e : Event.event num) :
  match Event.t e with
  | Event.d =>
      _used_server (updated s e) = _used_server s - 1 /\
      queue (updated s e) = queue s
  | Event.a =>
      _used_server (updated s e) = _used_server s /\
      (queue (updated s e) = queue s \/
       queue (updated s e) = queue s ++ [e] /\
       (customer_number s < K s \/ customer_number s < 2 * K s))
  end.
Proof.
  unfold updated. rewrite transition_eq.
  destruct (Event.t e); [|fields; now split].
  destruct (customer_number s <? K s) eqn:H1.
  { apply Z.ltb_lt in H1. fields. split; [reflexivity|right]. now split; [|left]. }
  destruct (customer_number s <? 2 * K s) eqn:H2; [|fields; split; now try left].
  apply Z.ltb_lt in H2.
  destruct (fgeb _ half); fields; split; try reflexivity; [right|now left].
  now split; [|right].
Qed.

Lemma customer_number_append (q : list (Event.event num))
      (e : Event.event num) (u : Z) :
  Z.of_nat (length (q ++ [e])) + u = Z.of_nat (length q) + u + 1.
Proof. rewrite length_app. cbn [length]. lia. Qed.

(** How a promotion moves the two counters. *)
Lemma promotion_count (s s' : t num)
      (o : outcome (option (Event.event num))) :
  promotion s s' o ->
  K s' = K s /\
  Exponential.mu (_service_interval s') = Exponential.mu (_service_interval s) /\
  (s' = s /\ returned o = 0 \/
   exists idle,
     idle_server s = Return idle /\ 0 < idle /\ queue s <> [] /\
     (_used_server s' = _used_server s /\
      customer_number s' = customer_number s - 1 /\
      returned o = 0 /\
      is_zero (Exponential.mu (_service_interval s)) = true \/
      _used_server s' = _used_server s + 1 /\
      customer_number s' = customer_number s /\
      returned o = 1 /\
      is_zero (Exponential.mu (_service_interval s)) = false)).
Proof.
  destruct 1 as [Hn | x Hn Hx
                 | idle a0 rest Hn Hi Hpos Hq Hc
                 | idle a0 rest x' dur Hn Hi Hpos Hq Hc].
  - repeat split. now left.
  - repeat split. now left.
  - fields. repeat split. right. exists idle.
    repeat split; try assumption; [rewrite Hq; discriminate|].
    left. repeat split.
    + now apply customer_number_pop with a0.
    + unfold Exponential.call, py_div in Hc.
      destruct (is_zero (Exponential.mu (_service_interval s)));
        [reflexivity|].
      destruct (Uniform.call _). discriminate.
  - apply Exponential_call_returns in Hc. destruct Hc as (Hz & Hmu & _).
    fields. repeat split; [assumption|].
    right. exists idle.
    repeat split; try assumption; [rewrite Hq; discriminate|].
    right. repeat split; [|assumption].
    unfold customer_number. fields.
    unfold customer_number in *. rewrite Hq. cbn [length]. lia.
Qed.

(** When the guard of the promotion holds in a system with [K >= 2], somebody
    is waiting. *)
Lemma guard_nonempty (s : t num) (idle : Z) :
  2 <= K s -> 0 < customer_number s ->
  idle_server s = Return idle -> 0 < idle ->
  queue s <> [].
Proof.
  intros HK Hn Hi Hpos Hq.
  apply idle_server_returns in Hi. destruct Hi as (u & Hu & -> & Hb).
  unfold usable_server in Hu. unfold customer_number in *.
  rewrite Hq in *. cbn [length] in *.
  destruct (_ <? K s) eqn:H1.
  - injection Hu as <-. lia.
  - apply Z.ltb_ge in H1.
    destruct (_ <=? 2 * K s); [|discriminate].
    injection Hu as <-. unfold m in *. lia.
Qed.

Lemma capacity_inv_init (K0 : Z) (mu0 : num) (s : t num) :
  init K0 mu0 = Return s -> capacity_inv s.
Proof.
  unfold init. destruct (K0 <? 2) eqn:HK; [discriminate|].
  apply Z.ltb_ge in HK. intros [= <-].
  unfold capacity_inv, customer_number, fresh. fields. cbn [length]. lia.
Qed.

Lemma capacity_inv_updated (s : t num) (e : Event.event num) :
  capacity_inv s -> capacity_inv (updated s e).
Proof.
  intros [HK Hn].
  pose proof (transition_frame s e) as (HK' & _).
  pose proof (transition_count s e) as Hc.
  unfold capacity_inv. rewrite HK'. split; [assumption|].
  unfold customer_number in *.
  destruct (Event.t e).
  - destruct Hc as (-> & [-> | (-> & Hlt)]); [assumption|].
    rewrite customer_number_append. lia.
  - destruct Hc as (-> & ->). lia.
Qed.

Lemma capacity_inv_after (s : t num) (e : Event.event num) :
  capacity_inv s -> capacity_inv (after s e).
Proof.
  intros Hs. apply capacity_inv_updated with (e := e) in Hs.
  destruct (call_cases s e) as [Hp | (_ & -> & _)]; [|assumption].
  apply promotion_count in Hp.
  destruct Hp as (HK & _ & [(-> & _) | (idle & _ & _ & _ & Hc)]);
    [assumption|].
  destruct Hs as [H2 Hn]. unfold capacity_inv. rewrite HK.
  split; [assumption|].
  destruct Hc as [(_ & -> & _) | (_ & -> & _)]; lia.
Qed.

Lemma reachable_capacity_inv (s : t num) : reachable s -> capacity_inv s.
Proof.
  induction 1 as [K0 mu0 s Hs | s e _ IH].
  - eapply capacity_inv_init; eassumption.
  - now apply capacity_inv_after.
Qed.

End Counting.

(** ** Invariants of the reachable states *)

Section Invariants.
Context {num : Type} `{PyNum num}.
Import MarkovianQueueingSystem.

Lemma capacity_inv_usable (s : t num) :
  capacity_inv s ->
  customer_number s <= 2 * K s /\
  (usable_server s = Some 1 \/ usable_server s = Some 2) /\
  idle_server s <> Raise TypeError.
Proof.
  intros [HK Hn].
  split; [assumption|].
  assert (Hu : usable_server s = Some 1 \/ usable_server s = Some 2).
  { unfold usable_server.
    destruct (customer_number s <? K s); [now left|].
    destruct (customer_number s <=? 2 * K s) eqn:Hle; [now right|].
    apply Z.leb_gt in Hle. lia. }
  split; [assumption|].
  unfold idle_server.
  destruct Hu as [-> | ->];
    repeat match goal with
           | |- context [if ?c then _ else _] => destruct c
           end; discriminate.
Qed.

(** C8.  In every state reached from a constructed system by feeding it any
    events, [customer_number] is at most [2K], so [usable_server] is 1 or 2
    (never [None]) and [idle_server] does not fail on [None - int].  The same
    holds inside the next call, where the guard of the promotion reads
    [usable_server]; no call raises that [TypeError]. *)
Theorem capacity_bound (s : t num) :
  reachable s ->
  (customer_number s <= 2 * K s /\
   (usable_server s = Some 1 \/ usable_server s = Some 2) /\
   idle_server s <> Raise TypeError) /\
  forall e : Event.event num,
    (customer_number (updated s e) <= 2 * K (updated s e) /\
     (usable_server (updated s e) = Some 1 \/
      usable_server (updated s e) = Some 2) /\
     idle_server (updated s e) <> Raise TypeError) /\
    result s e <> Raise TypeError.
Proof.
  intros Hr. apply reachable_capacity_inv in Hr.
  split; [now apply capacity_inv_usable|].
  intros e. apply capacity_inv_updated with (e := e) in Hr.
  apply capacity_inv_usable in Hr.
  split; [assumption|].
  destruct Hr as (_ & _ & Hi). intros Hx.
  destruct (call_cases s e) as [Hp | (_ & _ & Hb & _)].
  2:{ rewrite Hb in Hx. discriminate. }
  rewrite Hx in Hp.
  inversion Hp as [ | x Hn Hf | | ]; subst.
  destruct Hf as [Hf | (_ & _ & Hf)]; [contradiction|discriminate].
Qed.

(** C9.  In every reachable state, for every event fed, if the guard of the
    promotion holds after the transition then the waiting queue is not empty;
    hence no call ever raises the [IndexError] of [pop(0)] on an empty list. *)
Theorem pop_never_empty (s : t num) :
  reachable s ->
  (forall (e : Event.event num) (idle : Z),
      0 < customer_number (updated s e) ->
      idle_server (updated s e) = Return idle -> 0 < idle ->
      queue (updated s e) <> []) /\
  (forall e : Event.event num, result s e <> Raise IndexError).
Proof.
  intros Hr. apply reachable_capacity_inv in Hr.
  assert (Hg : forall (e : Event.event num) (idle : Z),
             0 < customer_number (updated s e) ->
             idle_server (updated s e) = Return idle -> 0 < idle ->
             queue (updated s e) <> []).
  { intros e idle Hn Hi Hpos.
    apply capacity_inv_updated with (e := e) in Hr. destruct Hr as [HK _].
    now apply guard_nonempty with idle. }
  split; [exact Hg|].
  intros e Hx.
  destruct (call_cases s e) as [Hp | (_ & _ & Hb & _)].
  2:{ rewrite Hb in Hx. discriminate. }
  rewrite Hx in Hp.
  inversion Hp as [ | x Hn Hf | | ]; subst.
  destruct Hf as [Hf | ((idle & Hi & Hpos) & Hq & _)].
  - apply idle_server_raises in Hf. destruct Hf; discriminate.
  - now apply (Hg e idle).
Qed.

(** C7.  When an arrival fed to any system makes the call return a departure
    event (the one generated for the arrival's own customer, when nobody was
    waiting ahead of it), feeding that event back straight away leaves
    [customer_number] at the value it had before the arrival. *)
Theorem arrival_departure_round_trip
        (s : t num) (arrival departure : Event.event num) :
  Event.t arrival = Event.a ->
  result s arrival = Return (Some departure) ->
  customer_number (after (after s arrival) departure) = customer_number s.
Proof.
  intros Ha Hres.
  (* the arrival *)
  pose proof (transition_count s arrival) as Hc. rewrite Ha in Hc.
  destruct Hc as [Hu Hq].
  destruct (call_cases s arrival) as [Hp | (_ & _ & Hb & _)].
  2:{ rewrite Hb in Hres. discriminate. }
  assert (Hd : Event.t departure = Event.d).
  { rewrite Hres in Hp. inversion Hp; subst. reflexivity. }
  assert (Hq' : queue (updated s arrival) = queue s ++ [arrival]).
  { destruct Hq as [Hq | [Hq _]]; [|assumption].
    rewrite Hres in Hp. inversion Hp as [ | | | idle a0 rest x' dur Hn]; subst.
    pose proof (transition_eq arrival s) as Ht. rewrite Ha in Ht.
    unfold updated in *.
    destruct (customer_number s <? K s); [rewrite Ht; reflexivity|].
    destruct (customer_number s <? 2 * K s).
    - destruct (fgeb _ half); [rewrite Ht; reflexivity|].
      pose proof (call_raises _ _ _ _ Ht) as (_ & _ & Hx).
      rewrite Hx in Hres. discriminate.
    - pose proof (call_raises _ _ _ _ Ht) as (_ & _ & Hx).
      rewrite Hx in Hres. discriminate. }
  apply promotion_count in Hp.
  destruct Hp as (_ & Hmu & [(_ & Hret) | (idle & _ & _ & _ & Hcase)]);
    rewrite Hres in *; [discriminate|].
  destruct Hcase as [(_ & _ & Hret & _) | (_ & Hn1 & _ & Hz)]; [discriminate|].
  assert (Hn : customer_number (after s arrival) = customer_number s + 1).
  { rewrite Hn1. unfold customer_number. rewrite Hu, Hq'.
    apply customer_number_append. }
  pose proof (transition_frame s arrival) as (_ & _ & _ & _ & Hsi & _).
  rewrite Hsi in Hmu, Hz.
  (* the departure *)
  set (s1 := after s arrival) in *.
  pose proof (transition_count s1 departure) as Hc. rewrite Hd in Hc.
  destruct Hc as [Hu1 Hq1].
  assert (Hn2 : customer_number (updated s1 departure) = customer_number s).
  { unfold customer_number in *. rewrite Hu1, Hq1. lia. }
  pose proof (transition_frame s1 departure) as (_ & _ & _ & _ & Hsi1 & _).
  destruct (call_cases s1 departure) as [Hp | (Hx & _)].
  2:{ rewrite Hd in Hx. discriminate. }
  apply promotion_count in Hp.
  destruct Hp as (_ & _ & [(-> & _) | (idle' & _ & _ & _ & Hcase)]);
    [assumption|].
  rewrite Hsi1, Hmu in Hcase.
  destruct Hcase as [(_ & _ & _ & Hz') | (_ & -> & _)]; [congruence|assumption].
Qed.

End Invariants.

(** ** The idle-server bound *)

Section Idle_bound.
Context {num : Type} `{PyNum num}.
Import MarkovianQueueingSystem.

Lemma driven_inv_idle (s : t num) (n : Z) :
  driven_inv s n ->
  idle_bound s /\ exists idle, idle_server s = Return idle.
Proof.
  intros (HK & _ & Hu & Hn & H2).
  assert (Hb : idle_bound s).
  { unfold idle_bound, usable_server.
    destruct (customer_number s <? K s) eqn:H1.
    - apply Z.ltb_lt in H1. exists 1. split; [reflexivity|lia].
    - destruct (customer_number s <=? 2 * K s) eqn:Hle.
      + exists m. split; [reflexivity|unfold m; lia].
      + apply Z.leb_gt in Hle. lia. }
  split; [assumption|].
  destruct Hb as (u & Hus & Hlo & Hhi).
  exists (u - _used_server s). unfold idle_server. rewrite Hus.
  destruct (0 <=? u - _used_server s) eqn:H0; [|apply Z.leb_gt in H0; lia].
  destruct (u - _used_server s <=? u) eqn:H1; [reflexivity|].
  apply Z.leb_gt in H1. lia.
Qed.

Lemma driven_inv_promotion (s s' : t num) (n : Z)
      (o : outcome (option (Event.event num))) :
  driven_inv s n -> promotion s s' o -> driven_inv s' (n + returned o).
Proof.
  intros (HK & Hn & Hu & Hc & H2) Hp.
  apply promotion_count in Hp.
  destruct Hp as (HK' & _ & [(-> & ->) | (idle & Hi & Hpos & _ & Hcase)]).
  { unfold driven_inv. repeat split; try assumption; lia. }
  apply idle_server_returns in Hi. destruct Hi as (u & Hus & -> & Hb).
  assert (Hu2 : u = 1 /\ customer_number s < K s \/
                u = 2 /\ K s <= customer_number s).
  { unfold usable_server in Hus.
    destruct (customer_number s <? K s) eqn:H1.
    - apply Z.ltb_lt in H1. injection Hus as <-. now left.
    - apply Z.ltb_ge in H1.
      destruct (customer_number s <=? 2 * K s); [|discriminate].
      injection Hus as <-. now right. }
  unfold driven_inv. rewrite HK'.
  destruct Hcase as [(-> & -> & -> & _) | (-> & -> & -> & _)];
    repeat split; try assumption; lia.
Qed.

Lemma driven_driven_inv (s : t num) (n : Z) : driven s n -> driven_inv s n.
Proof.
  induction 1 as [K0 mu0 s Hs | s n e _ IH He | s n e _ IH He Hn].
  - unfold init in Hs. destruct (K0 <? 2) eqn:HK; [discriminate|].
    apply Z.ltb_ge in HK. injection Hs as <-.
    unfold driven_inv, customer_number, fresh. fields. cbn [length].
    repeat split; lia.
  - destruct IH as (HK & Hu & Hb & Hc & H2).
    pose proof (transition_frame s e) as (HK' & _).
    pose proof (transition_count s e) as Ht. rewrite He in Ht.
    destruct Ht as [Hus Hq].
    assert (Hupd : driven_inv (updated s e) n).
    { unfold driven_inv, customer_number in *. rewrite HK', Hus.
      destruct Hq as [-> | (-> & Hlt)];
        rewrite ?customer_number_append; repeat split; try assumption; lia. }
    destruct (call_cases s e) as [Hp | (_ & -> & -> & _)].
    + now apply driven_inv_promotion with (updated s e).
    + cbn [returned]. now rewrite Z.add_0_r.
  - destruct IH as (HK & Hu & Hb & Hc & H2).
    pose proof (transition_frame s e) as (HK' & _).
    pose proof (transition_count s e) as Ht. rewrite He in Ht.
    destruct Ht as [Hus Hq].
    assert (Hupd : driven_inv (updated s e) (n - 1)).
    { unfold driven_inv, customer_number in *. rewrite HK', Hus, Hq.
      repeat split; try assumption; lia. }
    destruct (call_cases s e) as [Hp | (Hx & _)].
    + now apply driven_inv_promotion with (updated s e).
    + rewrite He in Hx. discriminate.
Qed.

(** C1, as the code has it.  In every state reached from a constructed system
    by calls in which a departure is fed only while a departure event handed
    out by an earlier call is still outstanding (arrivals are fed freely),
    the idle-server bound holds when the call ends, returning or raising, and
    the [assert] of [idle_server] passes. *)
Theorem idle_bound_driven (s : t num) (n : Z) :
  driven s n ->
  idle_bound s /\ exists idle, idle_server s = Return idle.
Proof.
  intros Hd. apply driven_driven_inv in Hd. now apply driven_inv_idle with n.
Qed.

End Idle_bound.

(** ** The event list *)

Section Event_list.
Context {num : Type} `{TimeOrder num}.
Import Simulator EventQueue.

Lemma sort_by_time_snoc (l : list (Event.event num)) (e : Event.event num) :
  sort_by_time (l ++ [e]) = insert_by_time e (sort_by_time l).
Proof. unfold sort_by_time. now rewrite fold_left_app. Qed.

Lemma fltb_asym (x y : num) : fltb x y = true -> fltb y x = false.
Proof.
  intros Hxy. destruct (fltb y x) eqn:Hyx; [|reflexivity].
  pose proof (fltb_trans _ _ _ Hxy Hyx) as Hxx.
  rewrite fltb_irrefl in Hxx. discriminate.
Qed.

Lemma insert_by_time_In (e x : Event.event num) (l : list (Event.event num)) :
  In x (insert_by_time e l) -> x = e \/ In x l.
Proof.
  induction l as [|y l IH]; cbn [insert_by_time].
  - intros [<- | []]. now left.
  - destruct (fltb (Event.time e) (Event.time y)).
    + intros [<- | Hin]; [now left|now right].
    + intros [<- | Hin]; [right; now left|].
      destruct (IH Hin) as [-> | Hl]; [now left|right; now right].
Qed.

Lemma insert_by_time_sorted (e : Event.event num)
      (l : list (Event.event num)) :
  time_sorted l -> time_sorted (insert_by_time e l).
Proof.
  unfold time_sorted.
  induction 1 as [|y l Hl IH Hy]; cbn [insert_by_time].
  - constructor; constructor.
  - destruct (fltb (Event.time e) (Event.time y)) eqn:Hey.
    + constructor; [now constructor|].
      constructor; [now apply fltb_asym|].
      rewrite Forall_forall in Hy |- *. intros z Hz.
      destruct (fltb (Event.time z) (Event.time e)) eqn:Hze; [|reflexivity].
      rewrite <- (Hy z Hz). symmetry. now apply fltb_trans with (Event.time e).
    + constructor; [assumption|].
      rewrite Forall_forall in Hy |- *. intros z Hz.
      apply insert_by_time_In in Hz. destruct Hz as [-> | Hz]; auto.
Qed.

(** Sorting rearranges the events and loses none. *)
Lemma insert_by_time_Permutation (e : Event.event num)
      (l : list (Event.event num)) :
  Permutation (insert_by_time e l) (e :: l).
Proof.
  induction l as [|y l IH]; cbn [insert_by_time]; [reflexivity|].
  destruct (fltb (Event.time e) (Event.time y)); [reflexivity|].
  rewrite IH. apply perm_swap.
Qed.

Lemma sort_by_time_Permutation (l : list (Event.event num)) :
  Permutation (sort_by_time l) l.
Proof.
  induction l as [|e l IH] using rev_ind; [reflexivity|].
  rewrite sort_by_time_snoc, insert_by_time_Permutation, IH.
  apply Permutation_cons_append.
Qed.

Lemma sort_by_time_sorted (l : list (Event.event num)) :
  time_sorted (sort_by_time l).
Proof.
  induction l as [|e l IH] using rev_ind.
  - constructor.
  - rewrite sort_by_time_snoc. now apply insert_by_time_sorted.
Qed.

Lemma insert_by_time_last (e : Event.event num)
      (l : list (Event.event num)) :
  Forall (fun y => fltb (Event.time e) (Event.time y) = false) l ->
  insert_by_time e l = l ++ [e].
Proof.
  induction 1 as [|y l Hy _ IH]; cbn [insert_by_time app]; [reflexivity|].
  now rewrite Hy, IH.
Qed.

Lemma time_sorted_snoc (l : list (Event.event num)) (e : Event.event num) :
  time_sorted (l ++ [e]) ->
  time_sorted l /\
  Forall (fun y => fltb (Event.time e) (Event.time y) = false) l.
Proof.
  unfold time_sorted. induction l as [|y l IH]; cbn [app].
  - intros _. split; constructor.
  - intros Hs. inversion Hs as [|? ? Hl Hy]; subst.
    destruct (IH Hl) as [Hl' Hf].
    rewrite Forall_app in Hy. destruct Hy as [Hy He].
    inversion He; subst.
    split; constructor; assumption.
Qed.

Lemma sort_by_time_id (l : list (Event.event num)) :
  time_sorted l -> sort_by_time l = l.
Proof.
  induction l as [|e l IH] using rev_ind; [reflexivity|].
  intros Hs. apply time_sorted_snoc in Hs. destruct Hs as [Hl Hf].
  rewrite sort_by_time_snoc, (IH Hl). now apply insert_by_time_last.
Qed.

(** The head of the sorted list is the earliest pending event. *)
Lemma sort_by_time_head (p : list (Event.event num)) :
  p <> [] ->
  exists e l' p',
    sort_by_time p = e :: l' /\ earliest p e p' /\ holds l' p'.
Proof.
  induction p as [|x p IH] using rev_ind; [congruence|]. intros _.
  rewrite sort_by_time_snoc.
  destruct p as [|y p].
  { exists x, [], []. repeat split.
    exists [], []. repeat split; constructor. }
  destruct IH as (e & l' & p' & Hs & (before & later & Hp & Hp' & Hb & Hl) & Hh);
    [discriminate|].
  rewrite Hs. cbn [insert_by_time].
  destruct (fltb (Event.time x) (Event.time e)) eqn:Hxe.
  - exists x, (e :: l'), (y :: p). repeat split.
    + exists (y :: p), []. rewrite app_nil_r. repeat split; [|constructor].
      rewrite Hp. apply Forall_app. split.
      * eapply Forall_impl; [|exact Hb]. cbv beta. intros z Hz.
        now apply fltb_trans with (Event.time e).
      * constructor; [assumption|].
        eapply Forall_impl; [|exact Hl]. cbv beta. intros z Hz.
        destruct (fltb_split _ _ (Event.time z) Hxe) as [Hxz | Hze];
          [assumption|congruence].
    + unfold holds. now rewrite Hs.
  - exists e, (insert_by_time x l'), (p' ++ [x]). repeat split.
    + exists before, (later ++ [x]). repeat split.
      * rewrite Hp. now rewrite <- app_assoc.
      * rewrite Hp'. now rewrite <- app_assoc.
      * assumption.
      * apply Forall_app. split; [assumption|]. now constructor.
    + unfold holds in *. now rewrite sort_by_time_snoc, <- Hh.
Qed.

(** The earliest pending event is determined by the pending events. *)
Lemma earliest_unique (p : list (Event.event num))
      (e1 e2 : Event.event num) (r1 r2 : list (Event.event num)) :
  earliest p e1 r1 -> earliest p e2 r2 -> e1 = e2 /\ r1 = r2.
Proof.
  intros (b1 & l1 & Hp1 & -> & Hb1 & Hl1) (b2 & l2 & Hp2 & -> & Hb2 & Hl2).
  revert b2 Hp2 Hb2. rewrite Hp1. clear Hp1.
  induction b1 as [|x b1 IH]; intros [|y b2]; cbn [app].
  - intros [= -> ->] _. now split.
  - intros [= -> ->] Hb. inversion Hb as [|? ? Hlt Hb']; subst.
    rewrite Forall_forall in Hl1.
    rewrite Hl1 in Hlt; [discriminate|].
    apply in_or_app. right. now left.
  - intros [= -> <-] _. inversion Hb1 as [|? ? Hlt Hb']; subst.
    rewrite Forall_forall in Hl2.
    rewrite Hl2 in Hlt; [discriminate|].
    apply in_or_app. right. now left.
  - intros [= -> Hp] Hb. inversion Hb1; subst. inversion Hb; subst.
    destruct (IH ltac:(assumption) b2 Hp ltac:(assumption)) as [-> Heq].
    split; [reflexivity|]. now rewrite Heq.
Qed.

(** C6.  The event list that [_append_event] and [pop(0)] maintain is an
    event queue: starting empty, it holds the pending events after every
    insertion and extraction; [pop(0)] on a list holding at least one pending
    event returns the one with the smallest time, the first inserted among
    those of equal time (and there is only one such event), and on a list
    holding none it raises [IndexError]. *)
Theorem pop_earliest :
  holds [] [] /\
  (forall l p (e : Event.event num),
      holds l p -> holds (_append_event l e) (insert p e)) /\
  (forall l : list (Event.event num),
      holds l [] -> pop0 l = Raise IndexError) /\
  (forall l (p : list (Event.event num)),
      holds l p -> p <> [] ->
      exists e l' p',
        pop0 l = Return (e, l') /\ earliest p e p' /\ holds l' p' /\
        forall e2 p2, earliest p e2 p2 -> e2 = e /\ p2 = p').
Proof.
  split; [reflexivity|].
  split.
  { intros l p e ->. unfold holds, _append_event, insert.
    rewrite !sort_by_time_snoc.
    now rewrite (sort_by_time_id _ (sort_by_time_sorted p)). }
  split.
  { intros l ->. reflexivity. }
  intros l p -> Hp.
  destruct (sort_by_time_head p Hp) as (e & l' & p' & Hs & He & Hh).
  exists e, l', p'. rewrite Hs. split; [reflexivity|].
  split; [assumption|]. split; [assumption|].
  - intros e2 p2 He2. exact (earliest_unique _ _ _ _ _ He2 He).
Qed.

End Event_list.

(** ** The driver's loop *)

Section Driver.
Context {num : Type} `{PyNum num}.
Import Simulator.

Lemma departures_in_cons (e : Event.event num) (l : list (Event.event num)) :
  departures_in (e :: l)
  = departures_in l + match Event.t e with Event.d => 1 | Event.a => 0 end.
Proof.
  unfold departures_in. cbn [filter].
  destruct (Event.t e); cbn [length]; lia.
Qed.

Lemma departures_in_insert (e : Event.event num)
      (l : list (Event.event num)) :
  departures_in (insert_by_time e l) = departures_in (e :: l).
Proof.
  induction l as [|y l IH]; cbn [insert_by_time]; [reflexivity|].
  destruct (fltb (Event.time e) (Event.time y)); [reflexivity|].
  rewrite departures_in_cons, IH, !departures_in_cons. lia.
Qed.

Lemma departures_in_sort (l : list (Event.event num)) :
  departures_in (sort_by_time l) = departures_in l.
Proof.
  induction l as [|e l IH] using rev_ind; [reflexivity|].
  unfold sort_by_time in *. rewrite fold_left_app. cbn [fold_left].
  rewrite departures_in_insert, departures_in_cons, IH.
  unfold departures_in. rewrite filter_app, length_app. cbn [filter].
  destruct (Event.t e); cbn [length]; lia.
Qed.

Lemma departures_in_append (l : list (Event.event num))
      (e : Event.event num) :
  departures_in (_append_event l e)
  = departures_in l + match Event.t e with Event.d => 1 | Event.a => 0 end.
Proof.
  unfold _append_event. rewrite departures_in_sort.
  unfold departures_in. rewrite filter_app, length_app. cbn [filter].
  destruct (Event.t e); cbn [length]; lia.
Qed.

(** What [process_event] returns is a departure event. *)
Lemma result_is_departure (s : MarkovianQueueingSystem.t num)
      (e dep : Event.event num) :
  result s e = Return (Some dep) -> Event.t dep = Event.d.
Proof.
  intros Hr.
  destruct (call_cases s e) as [Hp | (_ & _ & Hb & _)].
  - rewrite Hr in Hp. inversion Hp; subst. reflexivity.
  - rewrite Hb in Hr. discriminate.
Qed.

(** The events the loop feeds to the system are fed the driven way: the
    departure events waiting in the event list are the ones handed out and
    not yet fed back. *)
Lemma visits_driven (f : frame num) :
  visits f -> driven (mqs (self f)) (departures_in (_event_list (self f))).
Proof.
  induction 1 as [K0 mu0 q lambda_ times0 f o Hq Hs | f _ IH].
  - unfold start in Hs. cbn [_arrival_interval init _event_list] in Hs.
    destruct (Exponential.call (Exponential.init lambda_)) as [x' [v|err]];
      injection Hs as <- _; cbn [self mqs _event_list set_event_list
                                 set_arrival_interval init].
    + rewrite departures_in_append. cbn [Event.t Event.init app].
      now apply driven_init with K0 mu0.
    + now apply driven_init with K0 mu0.
  - unfold iteration.
    destruct (_event_list (self f)) as [|event rest] eqn:Hl;
      cbn [pop0]; [cbn [fst]; now rewrite Hl|].
    rewrite departures_in_cons in IH.
    pose proof (result_is_departure (mqs (self f)) event) as Hdep.
    unfold result in Hdep.
    assert (Hstep :
      forall l,
        l = match snd (MarkovianQueueingSystem.process_event
                         event (mqs (self f))) with
            | Return (Some departure_event) =>
                _append_event rest departure_event
            | _ => rest
            end ->
        driven (after (mqs (self f)) event) (departures_in l)).
    { intros l ->.
      assert (Hcount :
        departures_in
          match snd (MarkovianQueueingSystem.process_event
                       event (mqs (self f))) with
          | Return (Some departure_event) => _append_event rest departure_event
          | _ => rest
          end
        = departures_in rest + returned (result (mqs (self f)) event)).
      { unfold result.
        destruct (snd (MarkovianQueueingSystem.process_event
                         event (mqs (self f)))) as [[dep|]|x];
          cbn [returned]; try lia.
        rewrite departures_in_append, (Hdep dep eq_refl). reflexivity. }
      rewrite Hcount.
      destruct (Event.t event) eqn:He.
      - rewrite Z.add_0_r in IH. now apply driven_arrival.
      - replace (departures_in rest)
          with (departures_in rest + 1 - 1) by lia.
        apply driven_departure; [assumption|assumption|].
        unfold departures_in. lia. }
    unfold after in Hstep.
    destruct (MarkovianQueueingSystem.process_event event (mqs (self f)))
      as [mqs' o].
    cbn [fst snd] in Hstep.
    destruct (Event.t event).
    + cbn [_arrival_interval set_event_list set_mqs].
      destruct (Exponential.call (_arrival_interval (self f)))
        as [x' [interval|err]];
        cbn [fst self mqs _event_list set_event_list set_mqs
             set_arrival_interval].
      * rewrite departures_in_append. cbn [Event.t Event.init].
        rewrite Z.add_0_r. now apply Hstep.
      * now apply Hstep.
    + cbn [fst self mqs _event_list set_event_list set_mqs]. now apply Hstep.
Qed.

(** The idle-server bound holds in every state the driver's loop reaches. *)
Corollary visits_idle_bound (f : frame num) :
  visits f -> idle_bound (mqs (self f)).
Proof.
  intros Hv. apply visits_driven, driven_driven_inv in Hv.
  exact (proj1 (driven_inv_idle _ _ Hv)).
Qed.

(** The loop only passes through visited frames. *)
Lemma loop_visits (fuel : nat) :
  forall f : frame num, visits f -> visits (fst (loop fuel f)).
Proof.
  induction fuel as [|fuel IH]; intros f Hv; cbn [loop]; [assumption|].
  destruct (departure_event_number f <? _times (self f)); [|assumption].
  pose proof (visits_iteration f Hv) as Hv'.
  destruct (iteration f) as [f' [[]|err]]; cbn [fst] in *; auto.
Qed.

End Driver.

(** ** Construction *)

Section Construction.
Context {num : Type} `{PyNum num}.

(** C4, as the code has it.  Constructing the system and its simulator
    raises [ValueError] when [K < 2] and succeeds when [K >= 2], whatever the
    two rates are: [K = 1] is refused and [K = 2] is accepted. *)
Theorem construct_checks_capacity (K0 : Z) (mu0 lambda_ : num) (times0 : Z) :
  (K0 < 2 -> construct K0 mu0 lambda_ times0 = Raise ValueError) /\
  (2 <= K0 ->
   construct K0 mu0 lambda_ times0
   = Return (Simulator.init (MarkovianQueueingSystem.fresh K0 mu0)
                            lambda_ times0)) /\
  construct 1 mu0 lambda_ times0 = Raise ValueError /\
  construct 2 mu0 lambda_ times0
  = Return (Simulator.init (MarkovianQueueingSystem.fresh 2 mu0)
                           lambda_ times0).
Proof.
  unfold construct, MarkovianQueueingSystem.init.
  repeat split.
  - intros HK. apply Z.ltb_lt in HK. now rewrite HK.
  - intros HK. apply Z.ltb_ge in HK. now rewrite HK.
Qed.

End Construction.

(** ** The model on concrete inputs *)

Lemma Q_fltb_lt (x y : Q) : fltb x y = true <-> (x < y)%Q.
Proof.
  cbn. rewrite negb_true_iff. split.
  - intros Hb. apply Qnot_le_lt. intros Hle.
    apply Qle_bool_iff in Hle. congruence.
  - intros Hlt. destruct (Qle_bool y x) eqn:Hb; [|reflexivity].
    apply Qle_bool_iff in Hb. now apply Qlt_not_le in Hlt.
Qed.

#[export] Instance Q_time_order : TimeOrder Q.
Proof.
  split.
  - intros x. destruct (fltb x x) eqn:Hb; [|reflexivity].
    apply Q_fltb_lt in Hb. now apply Qlt_irrefl in Hb.
  - intros x y z Hxy Hyz. rewrite Q_fltb_lt in *.
    now apply Qlt_trans with y.
  - intros x y z Hxy. rewrite !Q_fltb_lt in *.
    destruct (Qlt_le_dec x z) as [Hlt | Hle]; [now left|right].
    now apply Qle_lt_trans with x.
Qed.

(** A departure fed to a freshly constructed system leaves it with
    [_used_server = -1]: the idle-server bound fails when that call ends. *)
Lemma idle_bound_fails_after_stray_departure :
  MarkovianQueueingSystem.init 2 (3 # 1) = Return Sample.mqs /\
  reachable (after Sample.mqs Sample.stray) /\
  result Sample.mqs Sample.stray = Return None /\
  MarkovianQueueingSystem.usable_server (after Sample.mqs Sample.stray)
  = Some 1 /\
  MarkovianQueueingSystem._used_server (after Sample.mqs Sample.stray) = -1 /\
  ~ idle_bound (after Sample.mqs Sample.stray) /\
  MarkovianQueueingSystem.idle_server (after Sample.mqs Sample.stray)
  = Raise AssertionError.
Proof.
  split; [reflexivity|].
  split; [apply reachable_step, (reachable_init 2 (3 # 1)); reflexivity|].
  split; [reflexivity|].
  split; [reflexivity|].
  split; [reflexivity|].
  split; [|reflexivity].
  intros (u & Hu & Hb).
  assert (Hu1 : MarkovianQueueingSystem.usable_server
                  (after Sample.mqs Sample.stray) = Some 1)
    by reflexivity.
  assert (Hs : MarkovianQueueingSystem._used_server
                 (after Sample.mqs Sample.stray) = -1)
    by reflexivity.
  rewrite Hu1 in Hu. injection Hu as <-. rewrite Hs in Hb. lia.
Qed.

(** Construction succeeds with a negative service rate and a zero arrival
    rate. *)
Lemma construct_accepts_nonpositive_rates :
  (-1 # 1 <= 0)%Q /\ (0 <= 0)%Q /\
  construct 4 (-1 # 1)%Q 0%Q 100000
  = Return (Simulator.init (MarkovianQueueingSystem.fresh 4 (-1 # 1)%Q)
                           0%Q 100000).
Proof.
  split; [discriminate|]. split; [apply Qle_refl|reflexivity].
Qed.

(** After one arrival, fed to the fresh system, one departure is outstanding
    and the bound holds. *)
Lemma idle_bound_driven_witness :
  driven (after Sample.mqs Sample.first)
         (0 + returned (result Sample.mqs Sample.first)) /\
  idle_bound (after Sample.mqs Sample.first) /\
  exists idle,
    MarkovianQueueingSystem.idle_server
      (after Sample.mqs Sample.first) = Return idle.
Proof.
  assert (Hd : driven (after Sample.mqs Sample.first)
                      (0 + returned (result Sample.mqs
                                            Sample.first))).
  { apply driven_arrival; [|reflexivity].
    apply (driven_init 2 (3 # 1)%Q). reflexivity. }
  split; [exact Hd|].
  exact (idle_bound_driven _ _ Hd).
Defined.

(** The third arrival finds both servers busy ([K = 2] customers): one
    variate is drawn, it is below 0.5, and the arrival is blocked. *)
Lemma arrival_admission_witness :
  MarkovianQueueingSystem.customer_number Sample.busy = 2 /\
  MarkovianQueueingSystem._uniform (after Sample.busy Sample.third)
  = {| Uniform.seed := 20739838 |} /\
  result Sample.busy Sample.third = Raise CustomerBlocked /\
  MarkovianQueueingSystem.blocked_number
    (after Sample.busy Sample.third) = 1.
Proof.
  split; [reflexivity|].
  assert (HK : 2 <= MarkovianQueueingSystem.K Sample.busy)
    by (vm_compute; discriminate).
  destruct (arrival_admission Sample.busy Sample.third
                              HK eq_refl) as (_ & Hdraw & _).
  destruct Hdraw as (Hu & _ & Hb).
  { vm_compute. split; [discriminate|reflexivity]. }
  destruct Hb as (_ & Hbn & Hr); [reflexivity|].
  split; [exact Hu|]. split; [exact Hr|exact Hbn].
Defined.

(** [K = 1] is refused and [K = 2] accepted, here with rates 3 and 3.6. *)
Lemma construct_checks_capacity_witness :
  construct 1 (3 # 1)%Q (18 # 5)%Q 100000 = Raise ValueError /\
  construct 2 (3 # 1)%Q (18 # 5)%Q 100000
  = Return (Simulator.init (MarkovianQueueingSystem.fresh 2 (3 # 1)%Q)
                           (18 # 5)%Q 100000).
Proof.
  split.
  - apply (proj1 (construct_checks_capacity 1 (3 # 1)%Q (18 # 5)%Q 100000)).
    lia.
  - apply (proj1 (proj2 (construct_checks_capacity
                           2 (3 # 1)%Q (18 # 5)%Q 100000))).
    lia.
Defined.

(** Of the events inserted at times 2, 1, 1 the second one comes out. *)
Lemma pop_earliest_witness :
  exists l' p',
    Simulator.pop0
      (Simulator._append_event
         (Simulator._append_event
            (Simulator._append_event [] (Sample.arrival (2 # 1) 1))
            (Sample.departure (1 # 1) 2))
         (Sample.arrival (1 # 1) 3))
    = Return (Sample.departure (1 # 1) 2, l') /\
    EventQueue.earliest Sample.inserted (Sample.departure (1 # 1) 2) p' /\
    EventQueue.holds l' p'.
Proof.
  destruct (@pop_earliest Q Q_num Q_time_order) as (H0 & Happ & _ & Hpop).
  pose proof (Happ _ _ (Sample.arrival (2 # 1) 1) H0) as H1.
  pose proof (Happ _ _ (Sample.departure (1 # 1) 2) H1) as H2.
  pose proof (Happ _ _ (Sample.arrival (1 # 1) 3) H2) as H3.
  destruct (Hpop _ _ H3) as (e & l' & p' & Hp & He & Hh & _);
    [discriminate|].
  exists l', p'.
  assert (Hhead : e = Sample.departure (1 # 1) 2).
  { vm_compute in Hp. now injection Hp as <- _. }
  rewrite Hhead in *.
  split; [exact Hp|]. split; [exact He|exact Hh].
Defined.

(** The first arrival is served at once; feeding its departure back empties
    the system again. *)
Lemma arrival_departure_round_trip_witness :
  result Sample.mqs Sample.first
  = Return (Some (Sample.departure (10758158073 # 6504670455) 1)) /\
  MarkovianQueueingSystem.customer_number
    (after (after Sample.mqs Sample.first)
           (Sample.departure (10758158073 # 6504670455) 1))
  = MarkovianQueueingSystem.customer_number Sample.mqs.
Proof.
  split; [reflexivity|].
  apply arrival_departure_round_trip; reflexivity.
Defined.

(** The state after the third, blocked, arrival. *)
Lemma capacity_bound_witness :
  reachable (after Sample.busy Sample.third) /\
  MarkovianQueueingSystem.customer_number (after Sample.busy Sample.third)
  <= 2 * MarkovianQueueingSystem.K (after Sample.busy Sample.third) /\
  (MarkovianQueueingSystem.usable_server (after Sample.busy Sample.third)
   = Some 1 \/
   MarkovianQueueingSystem.usable_server (after Sample.busy Sample.third)
   = Some 2) /\
  MarkovianQueueingSystem.idle_server (after Sample.busy Sample.third)
  <> Raise TypeError.
Proof.
  assert (Hr : reachable (after Sample.busy Sample.third)).
  { do 3 apply reachable_step. apply (reachable_init 2 (3 # 1)%Q). reflexivity. }
  split; [exact Hr|]. exact (proj1 (capacity_bound _ Hr)).
Defined.

Lemma pop_never_empty_witness :
  reachable Sample.mqs /\
  MarkovianQueueingSystem.idle_server
    (updated Sample.mqs Sample.first) = Return 1 /\
  MarkovianQueueingSystem.queue
    (updated Sample.mqs Sample.first) <> [] /\
  result Sample.mqs Sample.first <> Raise IndexError.
Proof.
  assert (Hr : reachable Sample.mqs).
  { apply (reachable_init 2 (3 # 1)%Q). reflexivity. }
  split; [exact Hr|]. split; [reflexivity|].
  destruct (pop_never_empty _ Hr) as [Hg Hx].
  split; [|apply Hx].
  apply (Hg Sample.first 1); [reflexivity|reflexivity|lia].
Defined.

(** An arrival blocked while two customers wait and both servers are idle:
    nobody is promoted. *)
Lemma blocked_arrival_frame_witness :
  MarkovianQueueingSystem.idle_server (Sample.waiting 1234) = Return 2 /\
  result (Sample.waiting 1234) Sample.third = Raise CustomerBlocked /\
  MarkovianQueueingSystem.queue (after (Sample.waiting 1234) Sample.third)
  = [Sample.first; Sample.second] /\
  MarkovianQueueingSystem._used_server
    (after (Sample.waiting 1234) Sample.third) = 0 /\
  MarkovianQueueingSystem.current_time
    (after (Sample.waiting 1234) Sample.third) = (3 # 1)%Q /\
  MarkovianQueueingSystem.blocked_number
    (after (Sample.waiting 1234) Sample.third) = 1.
Proof.
  split; [reflexivity|].
  assert (Hr : result (Sample.waiting 1234) Sample.third
               = Raise CustomerBlocked) by reflexivity.
  split; [exact Hr|].
  destruct (blocked_arrival_frame _ _ Hr)
    as (_ & Hq & Hu & _ & _ & _ & Hc & _ & Hb).
  split; [exact Hq|]. split; [exact Hu|]. split; [exact Hc|exact Hb].
Defined.

(** With two servers idle and three customers waiting after an arrival was
    let in, one customer only is promoted. *)
Example single_promotion_two_idle :
  MarkovianQueueingSystem.idle_server
    (updated (Sample.waiting 100000) Sample.third) = Return 2 /\
  MarkovianQueueingSystem.queue (updated (Sample.waiting 100000) Sample.third)
  = [Sample.first; Sample.second; Sample.third] /\
  MarkovianQueueingSystem.queue (after (Sample.waiting 100000) Sample.third)
  = [Sample.second; Sample.third] /\
  MarkovianQueueingSystem._used_server
    (after (Sample.waiting 100000) Sample.third) = 1 /\
  returned (result (Sample.waiting 100000) Sample.third) = 1.
Proof. repeat split. Qed.

(** * Further properties of the program *)

(** ** The generator *)

Section Generator.
Context {num : Type} `{PyNum num}.

(** X1.  However many variates have been drawn since [__init__], the seed
    lies strictly between 0 and [m]: it never reaches 0, where the generator
    would stay for ever and [math.log] would be handed 0. *)
Theorem seed_never_zero (n : nat) :
  0 < Uniform.seed (calls n) < Uniform.m.
Proof.
  induction n as [|n IH].
  - exact Uniform_init_range.
  - unfold calls in *. cbn [Nat.iter]. unfold advance at 1.
    cbn [Uniform.call fst Uniform.seed]. now apply Uniform_seed_range.
Qed.

(** X2.  On seeds strictly between 0 and [m] the update of the seed is
    one-to-one: two generators in different states stay in different
    states. *)
Theorem advance_injective (u1 u2 : Uniform.t) :
  0 < Uniform.seed u1 < Uniform.m ->
  0 < Uniform.seed u2 < Uniform.m ->
  advance u1 = advance u2 -> u1 = u2.
Proof.
  destruct u1 as [s1], u2 as [s2]. cbn [Uniform.seed].
  intros H1 H2 Heq. apply (f_equal Uniform.seed) in Heq.
  change ((Uniform.k * s1) mod Uniform.m = (Uniform.k * s2) mod Uniform.m)
    in Heq.
  assert (Hd : (Uniform.m | Uniform.k * (s1 - s2))).
  { apply Z.mod_divide; [discriminate|].
    rewrite Z.mul_sub_distr_l, Zminus_mod, Heq, Z.sub_diag. reflexivity. }
  apply Z.gauss in Hd; [|reflexivity].
  destruct Hd as [q Hq].
  assert (q = 0) by (unfold Uniform.m in *; nia).
  subst q. f_equal. lia.
Qed.

End Generator.

(** ** Calls and runs of the system *)

Section System.
Context {num : Type} `{PyNum num}.
Import MarkovianQueueingSystem.

(** X3.  For a given capacity, [usable_server] does not decrease as customers
    are added, up to [2K] customers: it is 1 below [K] and 2 from [K] to
    [2K]; beyond [2K] the property returns [None]. *)
Theorem usable_server_monotone (s1 s2 : t num) :
  2 <= K s1 -> K s1 = K s2 ->
  customer_number s1 <= customer_number s2 ->
  (customer_number s2 <= 2 * K s2 ->
   exists u1 u2,
     usable_server s1 = Some u1 /\ usable_server s2 = Some u2 /\
     1 <= u1 <= u2 /\ u2 <= 2 /\
     (u1 = 2 <-> K s1 <= customer_number s1)) /\
  (2 * K s2 < customer_number s2 -> usable_server s2 = None).
Proof.
  intros HK HKeq Hle. unfold usable_server. rewrite <- HKeq. split.
  - intros H2.
    destruct (customer_number s1 <? K s1) eqn:H1;
      [apply Z.ltb_lt in H1|apply Z.ltb_ge in H1].
    + destruct (customer_number s2 <? K s1) eqn:H3.
      * exists 1, 1. repeat split; try lia; discriminate.
      * destruct (customer_number s2 <=? 2 * K s1) eqn:H4;
          [|apply Z.leb_gt in H4; lia].
        exists 1, m. unfold m. repeat split; try lia; discriminate.
    + destruct (customer_number s1 <=? 2 * K s1) eqn:H5;
        [|apply Z.leb_gt in H5; lia].
      destruct (customer_number s2 <? K s1) eqn:H3;
        [apply Z.ltb_lt in H3; lia|].
      destruct (customer_number s2 <=? 2 * K s1) eqn:H4;
        [|apply Z.leb_gt in H4; lia].
      exists m, m. unfold m. repeat split; lia.
  - intros H2.
    destruct (customer_number s2 <? K s1) eqn:H3;
      [apply Z.ltb_lt in H3; lia|].
    destruct (customer_number s2 <=? 2 * K s1) eqn:H4;
      [apply Z.leb_le in H4; lia|reflexivity].
Qed.

(** X4.  Every call, whether it returns or raises, sets the clock to the
    time of the event and adds to the area accumulator the number of
    customers it found times the time elapsed; it never changes [K] or [mu]. *)
Theorem call_clock_area (s : t num) (e : Event.event num) :
  current_time (after s e) = Event.time e /\
  number_time_product_sum (after s e)
  = fadd (number_time_product_sum s)
         (fmul (of_int (customer_number s))
               (fsub (Event.time e) (current_time s))) /\
  K (after s e) = K s /\ mu (after s e) = mu s.
Proof.
  pose proof (transition_frame s e) as (HK & Hmu & Hct & Hnp & _).
  destruct (call_cases s e) as [Hp | (_ & -> & _)].
  - apply promotion_frame in Hp.
    destruct Hp as (HK' & Hmu' & _ & _ & Hct' & Hnp' & _).
    rewrite HK', Hmu', Hct', Hnp'. now repeat split.
  - now repeat split.
Qed.

Lemma transition_admission (s : t num) (e : Event.event num) :
  (blocked_number (updated s e) = blocked_number s \/
   Event.t e = Event.a /\ snd (transition e s) = Raise CustomerBlocked /\
   blocked_number (updated s e) = blocked_number s + 1) /\
  (Event.t e = Event.d ->
   _uniform (updated s e) = _uniform s /\
   blocked_number (updated s e) = blocked_number s /\
   snd (transition e s) = Return tt).
Proof.
  unfold updated. rewrite transition_eq.
  destruct (Event.t e).
  2:{ fields. split; [now left|]. intros _. now repeat split. }
  split; [|discriminate].
  destruct (customer_number s <? K s); [fields; now left|].
  destruct (customer_number s <? 2 * K s).
  - destruct (fgeb _ half); fields; [now left|right; now repeat split].
  - fields. right. now repeat split.
Qed.

(** X5.  A call given a departure never raises [CustomerBlocked] and leaves
    the admission generator and [blocked_number] alone; before the promotion
    it has taken one from [_used_server] and left the waiting queue as it
    was. *)
Theorem departure_frame (s : t num) (e : Event.event num) :
  Event.t e = Event.d ->
  result s e <> Raise CustomerBlocked /\
  _uniform (after s e) = _uniform s /\
  blocked_number (after s e) = blocked_number s /\
  _used_server (updated s e) = _used_server s - 1 /\
  queue (updated s e) = queue s.
Proof.
  intros He.
  pose proof (transition_admission s e) as (_ & Hd).
  destruct (Hd He) as (Hu & Hb & _).
  pose proof (transition_count s e) as Hc. rewrite He in Hc.
  destruct Hc as [Hus Hq].
  destruct (call_cases s e) as [Hp | (Ha & _)].
  2:{ rewrite He in Ha. discriminate. }
  apply promotion_frame in Hp.
  destruct Hp as (_ & _ & Hu' & Hb' & _ & _ & Hne).
  rewrite Hu', Hb'. now repeat split.
Qed.

Lemma blocked_number_after (s : t num) (e : Event.event num) :
  blocked_number (after s e) = blocked_number s \/
  Event.t e = Event.a /\ blocked_number (after s e) = blocked_number s + 1.
Proof.
  pose proof (transition_admission s e) as (Hb & _).
  destruct (call_cases s e) as [Hp | (He & -> & _ & _ & _ & Hbl)].
  - apply promotion_frame in Hp. destruct Hp as (_ & _ & _ & -> & _).
    destruct Hb as [Hb | (He & Hr & Hb)]; [now left|right; now split].
  - right. now split.
Qed.

(** X6.  Over any run [blocked_number] never decreases, and it grows by at
    most the number of arrivals fed. *)
Theorem blocked_number_run (es : list (Event.event num)) (s : t num) :
  blocked_number s <= blocked_number (run s es)
  <= blocked_number s + arrivals_in es.
Proof.
  revert s. induction es as [|e es IH]; intros s.
  - unfold arrivals_in. cbn. lia.
  - cbn [run fold_left]. specialize (IH (after s e)). unfold run in IH.
    assert (Ha : arrivals_in (e :: es)
                 = arrivals_in es
                   + match Event.t e with Event.a => 1 | Event.d => 0 end).
    { unfold arrivals_in. cbn [filter].
      destruct (Event.t e); cbn [length]; lia. }
    rewrite Ha.
    destruct (blocked_number_after s e) as [Hb | [He Hb]].
    + destruct (Event.t e); lia.
    + rewrite He. lia.
Qed.

End System.

(** ** The waiting queue is first in, first out *)

Section Fifo.
Context {num : Type} `{PyNum num}.
Import MarkovianQueueingSystem.

Lemma entered_spec (s : t num) (e : Event.event num) :
  queue (updated s e) = queue s ++ entered s e /\
  (entered s e = [] \/ entered s e = [e] /\ Event.t e = Event.a).
Proof.
  unfold entered.
  pose proof (transition_count s e) as Hc.
  assert (Hq : queue (updated s e) = queue s \/
               queue (updated s e) = queue s ++ [e] /\ Event.t e = Event.a).
  { destruct (Event.t e).
    - destruct Hc as (_ & [Hq | (Hq & _)]); [now left|right; now split].
    - destruct Hc as (_ & Hq). now left. }
  destruct Hq as [-> | [-> He]].
  - rewrite skipn_all, app_nil_r. split; [reflexivity|now left].
  - rewrite skipn_app, skipn_all, Nat.sub_diag. cbn [skipn app].
    split; [reflexivity|right; now split].
Qed.

Lemma taken_spec (s : t num) (e : Event.event num) :
  queue (updated s e) = taken s e ++ queue (after s e) /\
  (taken s e = [] /\ returned (result s e) = 0 \/
   exists arrival_event,
     taken s e = [arrival_event] /\
     forall dep, result s e = Return (Some dep) ->
                 Event.customer dep = Event.customer arrival_event).
Proof.
  unfold taken.
  destruct (call_cases s e) as [Hp | (_ & -> & -> & _)].
  2:{ rewrite Nat.sub_diag. cbn [firstn app returned].
      split; [reflexivity|now left]. }
  inversion Hp as [Hn Hs Ho | x Hn Hx Hs Ho
                   | idle a0 rest Hn Hi Hpos Hq Hc Hs Ho
                   | idle a0 rest x' dur Hn Hi Hpos Hq Hc Hs Ho].
  - rewrite Nat.sub_diag. cbn [firstn app returned].
    split; [reflexivity|now left].
  - rewrite Nat.sub_diag. cbn [firstn app returned].
    split; [reflexivity|now left].
  - fields. rewrite Hq. cbn [length].
    replace (S (length rest) - length rest)%nat with 1%nat by lia.
    cbn [firstn app]. split; [reflexivity|right].
    exists a0. split; [reflexivity|]. intros dep [=].
  - fields. rewrite Hq. cbn [length].
    replace (S (length rest) - length rest)%nat with 1%nat by lia.
    cbn [firstn app]. split; [reflexivity|right].
    exists a0. split; [reflexivity|]. intros dep [= <-]. reflexivity.
Qed.

(** X7.  The waiting queue is first in, first out, and nobody in it is lost
    or overtaken.  A call appends at most the arrival it was given, at the
    back, and takes at most one customer, at the front; a departure event
    returned is for the customer taken.  Over a run, the queue found followed
    by the arrivals let in, in order, is the customers taken, in order,
    followed by the queue left. *)
Theorem waiting_queue_fifo :
  (forall (s : t num) (e : Event.event num),
      queue (updated s e) = queue s ++ entered s e /\
      (entered s e = [] \/ entered s e = [e] /\ Event.t e = Event.a) /\
      queue (updated s e) = taken s e ++ queue (after s e) /\
      (taken s e = [] /\ returned (result s e) = 0 \/
       exists arrival_event,
         taken s e = [arrival_event] /\
         forall dep, result s e = Return (Some dep) ->
                     Event.customer dep = Event.customer arrival_event)) /\
  (forall (es : list (Event.event num)) (s : t num),
      queue s ++ entered_run s es = taken_run s es ++ queue (run s es)).
Proof.
  split.
  - intros s e.
    destruct (entered_spec s e) as [H1 H2].
    destruct (taken_spec s e) as [H3 H4]. now repeat split.
  - induction es as [|e es IH]; intros s.
    + cbn. now rewrite app_nil_r.
    + cbn [entered_run taken_run run fold_left].
      destruct (entered_spec s e) as [H1 _].
      destruct (taken_spec s e) as [H3 _].
      rewrite app_assoc, <- H1, H3, <- !app_assoc.
      f_equal. apply IH.
Qed.

End Fifo.

(** ** The driven states *)

Section Driven.
Context {num : Type} `{PyNum num}.
Import MarkovianQueueingSystem.

(** The three kinds of call: a departure, an arrival let in, an arrival
    blocked. *)
Lemma call_kinds (s : t num) (e : Event.event num) :
  (Event.t e = Event.d /\
   _used_server (updated s e) = _used_server s - 1 /\
   queue (updated s e) = queue s /\
   blocked_number (updated s e) = blocked_number s /\
   promotion (updated s e) (after s e) (result s e)) \/
  (Event.t e = Event.a /\
   _used_server (updated s e) = _used_server s /\
   queue (updated s e) = queue s ++ [e] /\
   blocked_number (updated s e) = blocked_number s /\
   (customer_number s < K s \/ customer_number s < 2 * K s) /\
   promotion (updated s e) (after s e) (result s e)) \/
  (Event.t e = Event.a /\
   _used_server (updated s e) = _used_server s /\
   queue (updated s e) = queue s /\
   blocked_number (updated s e) = blocked_number s + 1 /\
   K s <= customer_number s /\
   after s e = updated s e /\ result s e = Raise CustomerBlocked).
Proof.
  pose proof (transition_eq e s) as Ht.
  destruct (Event.t e) eqn:He.
  - destruct (customer_number s <? K s) eqn:H1.
    { apply Z.ltb_lt in H1. right; left.
      apply call_promotes in Ht. destruct Ht as [Hu Hp].
      rewrite <- Hu in Hp. rewrite Hu at 1 2 3. fields.
      repeat split; auto. }
    apply Z.ltb_ge in H1.
    destruct (customer_number s <? 2 * K s) eqn:H2.
    + apply Z.ltb_lt in H2.
      destruct (fgeb _ half).
      * right; left. apply call_promotes in Ht. destruct Ht as [Hu Hp].
        rewrite <- Hu in Hp. rewrite Hu at 1 2 3. fields.
        repeat split; auto.
      * right; right. apply call_raises in Ht.
        destruct Ht as (Hu & Ha & Hr). rewrite Ha, Hr, Hu. fields.
        now repeat split.
    + right; right. apply call_raises in Ht.
      destruct Ht as (Hu & Ha & Hr). rewrite Ha, Hr, Hu. fields.
      now repeat split.
  - left. apply call_promotes in Ht. destruct Ht as [Hu Hp].
    rewrite <- Hu in Hp. rewrite Hu at 1 2 3. fields.
    repeat split; auto.
Qed.

Lemma usable_server_eq (s : t num) (u : Z) :
  usable_server s = Some u <->
  u = 1 /\ customer_number s < K s \/
  u = 2 /\ K s <= customer_number s <= 2 * K s.
Proof.
  unfold usable_server.
  destruct (customer_number s <? K s) eqn:H1;
    [apply Z.ltb_lt in H1|apply Z.ltb_ge in H1].
  - split; [intros [= <-]; now left|].
    intros [[-> _] | [_ Hc]]; [reflexivity|lia].
  - destruct (customer_number s <=? 2 * K s) eqn:H2;
      [apply Z.leb_le in H2|apply Z.leb_gt in H2].
    + split; [intros [= <-]; right; unfold m; now repeat split|].
      intros [[_ Hc] | [-> _]]; [lia|reflexivity].
    + split; [discriminate|]. intros [[_ Hc] | [_ Hc]]; lia.
Qed.

Lemma idle_server_eq (s : t num) (idle : Z) :
  idle_server s = Return idle <->
  exists u, usable_server s = Some u /\ idle = u - _used_server s /\
            0 <= idle <= u.
Proof.
  split; [apply idle_server_returns|].
  intros (u & Hu & -> & Hb). unfold idle_server. rewrite Hu.
  destruct (0 <=? u - _used_server s) eqn:H0; [|apply Z.leb_gt in H0; lia].
  destruct (u - _used_server s <=? u) eqn:H1; [reflexivity|].
  apply Z.leb_gt in H1. lia.
Qed.

Lemma driven_inv_updated (s : t num) (n : Z) (e : Event.event num) :
  driven_inv s n ->
  (Event.t e = Event.a \/ 0 < n) ->
  driven_inv (updated s e)
             (match Event.t e with Event.a => n | Event.d => n - 1 end).
Proof.
  intros (HK & Hu & Hb & Hc & H2) Hok.
  pose proof (transition_frame s e) as (HK' & _).
  destruct (call_kinds s e)
    as [(He & Hus & Hq & _) | [(He & Hus & Hq & _ & Hlt & _)
                              | (He & Hus & Hq & _)]];
    rewrite He in *; unfold driven_inv, customer_number in *;
    rewrite HK', Hus, Hq, ?customer_number_append.
  - destruct Hok as [Hok | Hok]; [discriminate|].
    repeat split; try assumption; lia.
  - repeat split; try assumption; lia.
  - repeat split; try assumption; lia.
Qed.

(** In a driven state of a system whose rate is not zero, a promotion either
    does nothing or moves the head of the queue into service. *)
Lemma promotion_driven (s s' : t num) (n : Z)
      (o : outcome (option (Event.event num))) :
  driven_inv s n ->
  is_zero (Exponential.mu (_service_interval s)) = false ->
  promotion s s' o ->
  s' = s /\ o = Return None /\
  (customer_number s <= 0 \/ idle_server s = Return 0) \/
  exists arrival_event rest idle dep,
    queue s = arrival_event :: rest /\
    idle_server s = Return idle /\ 0 < idle /\
    queue s' = rest /\ _used_server s' = _used_server s + 1 /\
    K s' = K s /\ blocked_number s' = blocked_number s /\
    o = Return (Some dep).
Proof.
  intros Hinv Hz Hp.
  pose proof (driven_inv_idle _ _ Hinv) as (_ & idle0 & Hi0).
  destruct Hinv as (HK & _).
  destruct Hp as [Hn | x Hn Hx
                  | idle a0 rest Hn Hi Hpos Hq Hc
                  | idle a0 rest x' dur Hn Hi Hpos Hq Hc].
  - left. now repeat split.
  - exfalso. destruct Hx as [Hx | ((idle & Hi & Hpos) & Hq & _)].
    + congruence.
    + now apply (guard_nonempty s idle).
  - exfalso. unfold Exponential.call, py_div in Hc. rewrite Hz in Hc.
    destruct (Uniform.call _). discriminate.
  - right. exists a0, rest, idle. eexists. fields. now repeat split.
Qed.

Lemma rates_after (s : t num) (e : Event.event num) :
  mu (after s e) = mu s /\
  Exponential.mu (_service_interval (after s e))
  = Exponential.mu (_service_interval s).
Proof.
  pose proof (transition_frame s e) as (_ & Hmu & _ & _ & Hsi & _).
  destruct (call_cases s e) as [Hp | (_ & -> & _)].
  - pose proof (promotion_frame _ _ _ Hp) as (_ & Hmu' & _).
    pose proof (promotion_count _ _ _ Hp) as (_ & Hsi' & _).
    rewrite Hmu', Hsi', Hmu, Hsi. now split.
  - rewrite Hmu, Hsi. now split.
Qed.

Lemma driven_service_rate (s : t num) (n : Z) :
  driven s n -> Exponential.mu (_service_interval s) = mu s.
Proof.
  induction 1 as [K0 mu0 s Hs | s n e _ IH He | s n e _ IH He Hn].
  - unfold init in Hs. destruct (K0 <? 2); [discriminate|].
    injection Hs as <-. reflexivity.
  - destruct (rates_after s e) as [-> ->]. exact IH.
  - destruct (rates_after s e) as [-> ->]. exact IH.
Qed.

(** X8.  In a driven state the busy servers are exactly the departure events
    handed out and not yet fed back; there are never more than two, never a
    negative number, and two only while at least [K] customers are present. *)
Theorem busy_servers_outstanding (s : t num) (n : Z) :
  driven s n ->
  _used_server s = n /\ 0 <= _used_server s <= m /\
  (_used_server s = m -> K s <= customer_number s) /\
  0 <= customer_number s.
Proof.
  intros Hd. apply driven_driven_inv in Hd.
  destruct Hd as (_ & -> & Hb & _ & H2). unfold m, customer_number.
  repeat split; try lia. exact H2.
Qed.

(** X9.  In a driven state of a system whose service rate is not zero, a call
    given an arrival, or a departure while one is outstanding, either returns
    or raises [CustomerBlocked] on an arrival: the [assert] of [idle_server]
    holds, [pop(0)] finds a customer and the division by the rate succeeds. *)
Theorem driven_call_outcome (s : t num) (n : Z) (e : Event.event num) :
  driven s n ->
  is_zero (mu s) = false ->
  (Event.t e = Event.a \/ 0 < n) ->
  (exists o, result s e = Return o) \/
  (Event.t e = Event.a /\ result s e = Raise CustomerBlocked).
Proof.
  intros Hd Hz Hok.
  pose proof (driven_service_rate _ _ Hd) as Hrate.
  apply driven_driven_inv in Hd.
  pose proof (driven_inv_updated s n e Hd Hok) as Hupd.
  pose proof (transition_frame s e) as (_ & _ & _ & _ & Hsi & _).
  destruct (call_cases s e) as [Hp | (He & _ & Hr & _)];
    [|right; now split].
  left.
  eapply promotion_driven in Hp; [|exact Hupd|now rewrite Hsi, Hrate].
  destruct Hp as [(_ & -> & _) | (a0 & rest & idle & dep & Hp)].
  - now exists None.
  - exists (Some dep). apply Hp.
Qed.

End Driven.

Section Work_conservation.
Context {num : Type} `{PyNum num}.
Import MarkovianQueueingSystem.

(** A promotion leaves nobody waiting beside an idle server, when at most one
    customer waits whenever no server is busy and both are usable. *)
Lemma promotion_keeps_busy (s s' : t num) (n : Z)
      (o : outcome (option (Event.event num))) :
  driven_inv s n ->
  is_zero (Exponential.mu (_service_interval s)) = false ->
  promotion s s' o ->
  (_used_server s = 0 -> K s <= customer_number s ->
   (length (queue s) <= 1)%nat) ->
  queue s' = [] \/ usable_server s' = Some (_used_server s').
Proof.
  intros Hinv Hz Hp H0.
  pose proof Hinv as (HK & _ & Hb & Hc & H2).
  eapply promotion_driven in Hp; [|exact Hinv|exact Hz].
  destruct Hp as [(-> & _ & [Hn | Hi])
                 | (a0 & rest & idle & dep & Hq & Hi & Hpos & Hq' & Hu' & HK'
                    & _)].
  - left. unfold customer_number in Hn.
    apply length_zero_iff_nil. lia.
  - right. apply idle_server_eq in Hi. destruct Hi as (u & Hu & Hi & _).
    rewrite Hu. f_equal. lia.
  - apply idle_server_eq in Hi. destruct Hi as (u & Hu & -> & _).
    apply usable_server_eq in Hu.
    destruct rest as [|b rest]; [now left|right].
    apply usable_server_eq. unfold customer_number in *.
    rewrite HK', Hq', Hu'. rewrite Hq in *. cbn [length] in *.
    destruct Hu as [[-> Hu] | [-> Hu]]; [left; lia|right].
    split; [|lia].
    assert (_used_server s = 1 \/ _used_server s = 0) as [Hone | Hzero]
        by lia; [lia|].
    specialize (H0 Hzero). lia.
Qed.

Lemma driven_keeps_busy (s : t num) (n : Z) :
  driven s n ->
  is_zero (mu s) = false ->
  queue s = [] \/ usable_server s = Some (_used_server s).
Proof.
  intros Hd.
  induction Hd as [K0 mu0 s Hs | s n e Hd IH He | s n e Hd IH He Hn];
    intros Hz.
  - unfold init in Hs. destruct (K0 <? 2); [discriminate|].
    injection Hs as <-. now left.
  - destruct (rates_after s e) as [Hmu Hsi].
    rewrite Hmu in Hz. specialize (IH Hz).
    pose proof (driven_service_rate _ _ Hd) as Hrate0.
    apply driven_driven_inv in Hd.
    pose proof (driven_inv_updated s n e Hd (or_introl He)) as Hupd.
    rewrite He in Hupd.
    pose proof (transition_frame s e) as (HK' & _ & _ & _ & Hsi' & _).
    pose proof Hd as (HK & _ & Hb & Hc & H2).
    destruct (call_kinds s e)
      as [(He' & _) | [(_ & Hus & Hq & _ & Hlt & Hp)
                      | (_ & Hus & Hq & _ & _ & Ha & _)]];
      [congruence| |].
    + eapply promotion_keeps_busy;
        [exact Hupd|now rewrite Hsi', Hrate0|exact Hp|].
      rewrite Hus, Hq, length_app. cbn [length]. intros Hzero _.
      destruct IH as [-> | Hu]; [cbn [length]; lia|].
      apply usable_server_eq in Hu. lia.
    + rewrite Ha, Hq.
      destruct IH as [-> | Hu]; [now left|right].
      apply usable_server_eq in Hu. apply usable_server_eq.
      unfold customer_number in *. rewrite HK', Hus, Hq. exact Hu.
  - destruct (rates_after s e) as [Hmu Hsi].
    rewrite Hmu in Hz. specialize (IH Hz).
    pose proof (driven_service_rate _ _ Hd) as Hrate0.
    apply driven_driven_inv in Hd.
    pose proof (driven_inv_updated s n e Hd (or_intror Hn)) as Hupd.
    rewrite He in Hupd.
    pose proof (transition_frame s e) as (HK' & _ & _ & _ & Hsi' & _).
    pose proof Hd as (HK & Hnu & Hb & Hc & H2).
    destruct (call_kinds s e)
      as [(_ & Hus & Hq & _ & Hp) | [(He' & _) | (He' & _)]];
      [|congruence|congruence].
    eapply promotion_keeps_busy;
      [exact Hupd|now rewrite Hsi', Hrate0|exact Hp|].
    rewrite Hus, Hq, HK'. unfold customer_number. rewrite Hus, Hq.
    intros Hzero HKn.
    destruct IH as [-> | Hu]; [cbn [length]; lia|].
    apply usable_server_eq in Hu. unfold customer_number in Hu. lia.
Qed.

(** X10.  In a driven state of a system whose service rate is not zero,
    nobody waits while a usable server is idle: when the waiting queue is not
    empty, [idle_server] is 0.  One promotion a call is enough. *)
Theorem nobody_waits_idle (s : t num) (n : Z) :
  driven s n ->
  is_zero (mu s) = false ->
  queue s <> [] ->
  idle_server s = Return 0.
Proof.
  intros Hd Hz Hq.
  destruct (driven_keeps_busy _ _ Hd Hz) as [Hnil | Hu]; [contradiction|].
  apply idle_server_eq. exists (_used_server s).
  apply driven_driven_inv in Hd. destruct Hd as (_ & _ & Hb & _).
  repeat split; try assumption; lia.
Qed.

End Work_conservation.

(** ** The event list and the loop of the driver *)

Section Event_list_more.
Context {num : Type} `{TimeOrder num}.
Import Simulator EventQueue.

Lemma insert_by_time_place (e : Event.event num)
      (l : list (Event.event num)) :
  time_sorted l ->
  exists l1 l2,
    l = l1 ++ l2 /\ insert_by_time e l = l1 ++ e :: l2 /\
    Forall (fun x => fltb (Event.time e) (Event.time x) = false) l1 /\
    Forall (fun x => fltb (Event.time e) (Event.time x) = true) l2.
Proof.
  unfold time_sorted.
  induction 1 as [|y l Hl IH Hy]; cbn [insert_by_time].
  - exists [], []. repeat split; constructor.
  - destruct (fltb (Event.time e) (Event.time y)) eqn:Hey.
    + exists [], (y :: l). repeat split; [constructor|].
      constructor; [assumption|].
      eapply Forall_impl; [|exact Hy]. cbv beta. intros z Hz.
      destruct (fltb_split _ _ (Event.time z) Hey) as [Hez | Hzy];
        [assumption|congruence].
    + destruct IH as (l1 & l2 & -> & -> & H1 & H2).
      exists (y :: l1), l2. repeat split; [|assumption].
      now constructor.
Qed.

(** X11.  [_append_event] keeps every event and loses none, leaves the list
    in non-decreasing order of time, and, on a list already in order, puts
    the new event behind every event that is not later than it and in front
    of every later one. *)
Theorem append_event_sorted (l : list (Event.event num))
        (e : Event.event num) :
  Permutation (_append_event l e) (e :: l) /\
  time_sorted (_append_event l e) /\
  (time_sorted l ->
   exists l1 l2,
     l = l1 ++ l2 /\ _append_event l e = l1 ++ e :: l2 /\
     Forall (fun x => fltb (Event.time e) (Event.time x) = false) l1 /\
     Forall (fun x => fltb (Event.time e) (Event.time x) = true) l2).
Proof.
  unfold _append_event. split; [|split].
  - rewrite sort_by_time_Permutation. symmetry.
    apply Permutation_cons_append.
  - apply sort_by_time_sorted.
  - intros Hs. rewrite sort_by_time_snoc, (sort_by_time_id l Hs).
    now apply insert_by_time_place.
Qed.

End Event_list_more.

Section Loop.
Context {num : Type} `{PyNum num}.
Import Simulator.

(** One pass of the loop over a non-empty event list, in terms of the call
    it makes. *)
Lemma iteration_eq (f : frame num) (event : Event.event num)
      (rest : list (Event.event num)) :
  _event_list (self f) = event :: rest ->
  let pending :=
    match result (mqs (self f)) event with
    | Return (Some departure_event) => _append_event rest departure_event
    | _ => rest
    end in
  let s1 := set_event_list pending
              (set_mqs (after (mqs (self f)) event) (self f)) in
  iteration f =
  match Event.t event with
  | Event.d =>
      ({| self := s1; total_number := total_number f;
          departure_event_number := departure_event_number f + 1 |},
       Return tt)
  | Event.a =>
      match Exponential.call (_arrival_interval (self f)) with
      | (x', Raise err) =>
          ({| self := set_arrival_interval x' s1;
              total_number := total_number f + 1;
              departure_event_number := departure_event_number f |},
           Raise err)
      | (x', Return interval) =>
          ({| self :=
                set_event_list
                  (_append_event pending
                     (Event.init Event.a
                        (fadd (MarkovianQueueingSystem.current_time
                                 (after (mqs (self f)) event)) interval)
                        (total_number f + 1)))
                  (set_arrival_interval x' s1);
              total_number := total_number f + 1;
              departure_event_number := departure_event_number f |},
           Return tt)
      end
  end.
Proof.
  intros Hl. unfold iteration, after, result. rewrite Hl. cbn [pop0].
  destruct (MarkovianQueueingSystem.process_event event (mqs (self f)))
    as [mqs' o].
  cbn [fst snd]. cbv zeta.
  destruct (Event.t event); [|reflexivity].
  cbn [_arrival_interval set_event_list set_mqs].
  destruct (Exponential.call (_arrival_interval (self f)))
    as [x' [interval|err]]; reflexivity.
Qed.

Lemma iteration_empty (f : frame num) :
  _event_list (self f) = [] -> iteration f = (f, Raise IndexError).
Proof. intros Hl. unfold iteration. now rewrite Hl. Qed.

Lemma arrivals_in_cons (e : Event.event num) (l : list (Event.event num)) :
  arrivals_in (e :: l)
  = arrivals_in l + match Event.t e with Event.a => 1 | Event.d => 0 end.
Proof.
  unfold arrivals_in. cbn [filter].
  destruct (Event.t e); cbn [length]; lia.
Qed.

Lemma arrivals_in_insert (e : Event.event num)
      (l : list (Event.event num)) :
  arrivals_in (insert_by_time e l) = arrivals_in (e :: l).
Proof.
  induction l as [|y l IH]; cbn [insert_by_time]; [reflexivity|].
  destruct (fltb (Event.time e) (Event.time y)); [reflexivity|].
  rewrite arrivals_in_cons, IH, !arrivals_in_cons. lia.
Qed.

Lemma arrivals_in_sort (l : list (Event.event num)) :
  arrivals_in (sort_by_time l) = arrivals_in l.
Proof.
  induction l as [|e l IH] using rev_ind; [reflexivity|].
  unfold sort_by_time in *. rewrite fold_left_app. cbn [fold_left].
  rewrite arrivals_in_insert, arrivals_in_cons, IH.
  unfold arrivals_in. rewrite filter_app, length_app. cbn [filter].
  destruct (Event.t e); cbn [length]; lia.
Qed.

Lemma arrivals_in_append (l : list (Event.event num))
      (e : Event.event num) :
  arrivals_in (_append_event l e)
  = arrivals_in l + match Event.t e with Event.a => 1 | Event.d => 0 end.
Proof.
  unfold _append_event. rewrite arrivals_in_sort.
  unfold arrivals_in. rewrite filter_app, length_app. cbn [filter].
  destruct (Event.t e); cbn [length]; lia.
Qed.

Lemma arrivals_in_pending (s : MarkovianQueueingSystem.t num)
      (event : Event.event num) (rest : list (Event.event num)) :
  arrivals_in
    match result s event with
    | Return (Some departure_event) => _append_event rest departure_event
    | _ => rest
    end
  = arrivals_in rest.
Proof.
  pose proof (result_is_departure s event) as Hdep.
  destruct (result s event) as [[dep|]|x]; try reflexivity.
  rewrite arrivals_in_append, (Hdep dep eq_refl). lia.
Qed.

(** What a pass of the loop keeps and counts. *)
Lemma iteration_frame (f : frame num) :
  _times (self (fst (iteration f))) = _times (self f) /\
  _lambda_ (self (fst (iteration f))) = _lambda_ (self f) /\
  Exponential.mu (_arrival_interval (self (fst (iteration f))))
  = Exponential.mu (_arrival_interval (self f)) /\
  MarkovianQueueingSystem.mu (mqs (self (fst (iteration f))))
  = MarkovianQueueingSystem.mu (mqs (self f)) /\
  departure_event_number f <= departure_event_number (fst (iteration f))
  <= departure_event_number f + 1.
Proof.
  destruct (_event_list (self f)) as [|event rest] eqn:Hl.
  { rewrite (iteration_empty f Hl). cbn [fst]. repeat split; lia. }
  rewrite (iteration_eq f event rest Hl). cbv zeta.
  pose proof (rates_after (mqs (self f)) event) as [Hmu _].
  destruct (Event.t event).
  - destruct (Exponential.call (_arrival_interval (self f)))
      as [x' [interval|err]] eqn:Hc;
      cbn [fst self departure_event_number _times _lambda_ mqs
           _arrival_interval set_event_list set_mqs set_arrival_interval].
    + apply Exponential_call_returns in Hc. destruct Hc as (_ & Hx & _).
      repeat split; try assumption; lia.
    + apply Exponential_call_raises in Hc. destruct Hc as [-> _].
      repeat split; try assumption; lia.
  - cbn [fst self departure_event_number _times _lambda_ mqs
         _arrival_interval set_event_list set_mqs].
    repeat split; try assumption; lia.
Qed.

(** X12.  The loop stops as soon as the departures fed number [times]: when
    it ends normally, having started with no more than [times] departures
    counted, exactly [times] are counted. *)
Theorem loop_stops_at_times (fuel : nat) (f f' : frame num) :
  departure_event_number f <= _times (self f) ->
  loop fuel f = (f', Some (Return tt)) ->
  departure_event_number f' = _times (self f') /\
  _times (self f') = _times (self f).
Proof.
  revert f. induction fuel as [|fuel IH]; intros f Hle; cbn [loop];
    [discriminate|].
  destruct (departure_event_number f <? _times (self f)) eqn:Hlt.
  - apply Z.ltb_lt in Hlt.
    pose proof (iteration_frame f) as (Ht & _ & _ & _ & Hd).
    destruct (iteration f) as [f1 [[]|err]]; cbn [fst] in *; [|discriminate].
    intros Hloop. apply IH in Hloop; [|lia].
    destruct Hloop as [-> ->]. now split.
  - apply Z.ltb_ge in Hlt. intros [= <-]. split; [lia|reflexivity].
Qed.

(** With an arrival rate that is not zero, exactly one arrival waits in the
    event list of every frame. *)
Lemma visits_one_arrival (f : frame num) :
  visits f ->
  is_zero (_lambda_ (self f)) = false ->
  Exponential.mu (_arrival_interval (self f)) = _lambda_ (self f) /\
  arrivals_in (_event_list (self f)) = 1.
Proof.
  induction 1 as [K0 mu0 q lambda_ times0 f o Hq Hs | f _ IH].
  - unfold start in Hs. cbn [_arrival_interval init _event_list] in Hs.
    destruct (Exponential.call (Exponential.init lambda_))
      as [x' [v|err]] eqn:Hc;
      injection Hs as <- _;
      cbn [self _lambda_ _arrival_interval _event_list set_event_list
           set_arrival_interval init]; intros Hz.
    + apply Exponential_call_returns in Hc. destruct Hc as (_ & Hx & _).
      split; [exact Hx|]. now rewrite arrivals_in_append.
    + unfold Exponential.call, py_div in Hc.
      cbn [Exponential.mu Exponential.init] in Hc. rewrite Hz in Hc.
      destruct (Uniform.call _). discriminate.
  - pose proof (iteration_frame f) as (_ & Hlam & Hrate & _).
    rewrite Hlam, Hrate. intros Hz. specialize (IH Hz).
    destruct IH as [Hmu Hone]. split; [exact Hmu|].
    destruct (_event_list (self f)) as [|event rest] eqn:Hl.
    { rewrite (iteration_empty f Hl). cbn [fst]. now rewrite Hl. }
    rewrite (iteration_eq f event rest Hl). cbv zeta.
    rewrite arrivals_in_cons in Hone.
    destruct (Event.t event).
    + destruct (Exponential.call (_arrival_interval (self f)))
        as [x' [interval|err]] eqn:Hc;
        cbn [fst self _event_list set_event_list set_arrival_interval
             set_mqs].
      * rewrite arrivals_in_append, arrivals_in_pending.
        cbn [Event.t Event.init]. lia.
      * unfold Exponential.call, py_div in Hc. rewrite Hmu, Hz in Hc.
        destruct (Uniform.call _). discriminate.
    + cbn [fst self _event_list set_event_list set_mqs].
      rewrite arrivals_in_pending. lia.
Qed.

Lemma visits_iteration_returns (f : frame num) :
  visits f ->
  is_zero (_lambda_ (self f)) = false ->
  snd (iteration f) = Return tt.
Proof.
  intros Hv Hz. destruct (visits_one_arrival f Hv Hz) as [Hmu Hone].
  destruct (_event_list (self f)) as [|event rest] eqn:Hl;
    [discriminate|].
  rewrite (iteration_eq f event rest Hl). cbv zeta.
  destruct (Event.t event); [|reflexivity].
  unfold Exponential.call, py_div. rewrite Hmu, Hz.
  destruct (Uniform.call _). reflexivity.
Qed.

(** X13.  With an arrival rate that is not zero the loop never fails: in
    every frame it passes through exactly one arrival waits in the event
    list, so [pop(0)] finds an event, every pass ends normally, and the loop
    can only end normally or go on. *)
Theorem loop_never_raises (f : frame num) :
  visits f ->
  is_zero (_lambda_ (self f)) = false ->
  arrivals_in (_event_list (self f)) = 1 /\
  snd (iteration f) = Return tt /\
  forall fuel : nat,
    snd (loop fuel f) = None \/ snd (loop fuel f) = Some (Return tt).
Proof.
  intros Hv Hz.
  split; [apply (visits_one_arrival f Hv Hz)|].
  split; [now apply visits_iteration_returns|].
  intros fuel. revert f Hv Hz.
  induction fuel as [|fuel IH]; intros f Hv Hz; cbn [loop]; [now left|].
  destruct (departure_event_number f <? _times (self f)); [|now right].
  pose proof (visits_iteration_returns f Hv Hz) as Hr.
  pose proof (visits_iteration f Hv) as Hv'.
  pose proof (iteration_frame f) as (_ & Hlam & _).
  destruct (iteration f) as [f1 [[]|err]]; cbn [fst snd] in *;
    [|discriminate].
  apply IH; [assumption|now rewrite Hlam].
Qed.

End Loop.

Section Accounting.
Context {num : Type} `{PyNum num}.
Import Simulator.

(** In a driven state of a system whose service rate is not zero, an arrival
    adds one to the customers blocked or present, a departure takes one from
    those present. *)
Lemma call_accounting (s : MarkovianQueueingSystem.t num) (n : Z)
      (e : Event.event num) :
  driven s n ->
  is_zero (MarkovianQueueingSystem.mu s) = false ->
  (Event.t e = Event.a \/ 0 < n) ->
  MarkovianQueueingSystem.blocked_number (after s e)
  + MarkovianQueueingSystem.customer_number (after s e)
  = MarkovianQueueingSystem.blocked_number s
    + MarkovianQueueingSystem.customer_number s
    + match Event.t e with Event.a => 1 | Event.d => -1 end.
Proof.
  intros Hd Hz Hok.
  pose proof (driven_service_rate _ _ Hd) as Hrate.
  apply driven_driven_inv in Hd.
  pose proof (driven_inv_updated s n e Hd Hok) as Hupd.
  pose proof (transition_frame s e) as (_ & _ & _ & _ & Hsi & _).
  assert (Hpromo :
    promotion (updated s e) (after s e) (result s e) ->
    MarkovianQueueingSystem.blocked_number (after s e)
    = MarkovianQueueingSystem.blocked_number (updated s e) /\
    MarkovianQueueingSystem.customer_number (after s e)
    = MarkovianQueueingSystem.customer_number (updated s e)).
  { intros Hp.
    eapply promotion_driven in Hp; [|exact Hupd|now rewrite Hsi, Hrate].
    destruct Hp as [(-> & _) | (a0 & rest & idle & dep & Hq & _ & _ & Hq'
                                & Hu' & _ & Hb' & _)];
      [now split|].
    split; [assumption|].
    unfold MarkovianQueueingSystem.customer_number.
    rewrite Hq', Hu', Hq. cbn [length]. lia. }
  unfold MarkovianQueueingSystem.customer_number in *.
  destruct (call_kinds s e)
    as [(He & Hus & Hq & Hb & Hp) | [(He & Hus & Hq & Hb & _ & Hp)
                                    | (He & Hus & Hq & Hb & _ & Ha & _)]];
    rewrite He.
  - destruct (Hpromo Hp) as [-> ->]. rewrite Hus, Hq, Hb. lia.
  - destruct (Hpromo Hp) as [-> ->].
    rewrite Hus, Hq, Hb, length_app. cbn [length]. lia.
  - rewrite Ha, Hus, Hq, Hb. lia.
Qed.

(** X14.  In every frame the loop passes through, when the service rate is
    not zero, no customer is unaccounted for: the arrivals fed so far
    ([total_number - 1]) are those blocked, those present and those whose
    departure was fed. *)
Theorem customers_accounted (f : frame num) :
  visits f ->
  is_zero (MarkovianQueueingSystem.mu (mqs (self f))) = false ->
  total_number f - 1 = accounted f.
Proof.
  induction 1 as [K0 mu0 q lambda_ times0 f o Hq Hs | f Hv IH].
  - intros _. unfold MarkovianQueueingSystem.init in Hq.
    destruct (K0 <? 2); [discriminate|]. injection Hq as <-.
    unfold start in Hs.
    destruct (Exponential.call _) as [x' [v|err]];
      injection Hs as <- _; reflexivity.
  - pose proof (iteration_frame f) as (_ & _ & _ & Hmu & _).
    rewrite Hmu. intros Hz. specialize (IH Hz).
    pose proof (visits_driven f Hv) as Hd.
    destruct (_event_list (self f)) as [|event rest] eqn:Hl.
    { now rewrite (iteration_empty f Hl). }
    assert (Hok : Event.t event = Event.a
                  \/ 0 < departures_in (event :: rest)).
    { rewrite departures_in_cons. unfold departures_in.
      destruct (Event.t event); [now left|right; lia]. }
    pose proof (call_accounting _ _ event Hd Hz Hok) as Hacc.
    rewrite (iteration_eq f event rest Hl). cbv zeta.
    unfold accounted in *.
    destruct (Event.t event).
    + destruct (Exponential.call (_arrival_interval (self f)))
        as [x' [interval|err]];
        cbn [fst self mqs total_number departure_event_number
             set_event_list set_arrival_interval set_mqs]; lia.
    + cbn [fst self mqs total_number departure_event_number
           set_event_list set_mqs]. lia.
Qed.

End Accounting.

Section Sorted_list.
Context {num : Type} `{TimeOrder num}.
Import Simulator EventQueue.

(** X15.  The event list of every frame the loop passes through is in
    non-decreasing order of time, so the event [pop(0)] takes is not later
    than any event left in the list. *)
Theorem visits_time_sorted (f : frame num) :
  visits f ->
  time_sorted (_event_list (self f)) /\
  forall event rest,
    _event_list (self f) = event :: rest ->
    Forall (fun x => fltb (Event.time x) (Event.time event) = false) rest.
Proof.
  intros Hv.
  assert (Hs : time_sorted (_event_list (self f))).
  { induction Hv as [K0 mu0 q lambda_ times0 f o Hq Hs | f Hv IH].
    - unfold start in Hs.
      destruct (Exponential.call _) as [x' [v|err]];
        injection Hs as <- _;
        cbn [self _event_list set_event_list set_arrival_interval init].
      + apply sort_by_time_sorted.
      + constructor.
    - destruct (_event_list (self f)) as [|event rest] eqn:Hl.
      { rewrite (iteration_empty f Hl). cbn [fst]. rewrite Hl. constructor. }
      rewrite (iteration_eq f event rest Hl). cbv zeta.
      assert (Hrest : time_sorted rest).
      { unfold time_sorted in *. now inversion IH. }
      assert (Hpend :
        time_sorted
          match result (mqs (self f)) event with
          | Return (Some departure_event) =>
              _append_event rest departure_event
          | _ => rest
          end).
      { destruct (result (mqs (self f)) event) as [[dep|]|x];
          try assumption. apply sort_by_time_sorted. }
      destruct (Event.t event).
      + destruct (Exponential.call (_arrival_interval (self f)))
          as [x' [interval|err]];
          cbn [fst self _event_list set_event_list set_arrival_interval
               set_mqs]; [apply sort_by_time_sorted|assumption].
      + cbn [fst self _event_list set_event_list set_mqs]. assumption. }
  split; [assumption|].
  intros event rest Hl. rewrite Hl in Hs. unfold time_sorted in Hs.
  now inversion Hs.
Qed.

End Sorted_list.

Section Customer_ids.
Context {num : Type} `{PyNum num}.
Import Simulator.

(** A property of the customers waiting and of the arrival fed is a property
    of the customers left waiting and of the customer of the departure
    returned. *)
Lemma call_customers (P : Z -> Prop) (s : MarkovianQueueingSystem.t num)
      (e : Event.event num) :
  Forall (fun x => P (Event.customer x)) (MarkovianQueueingSystem.queue s) ->
  (Event.t e = Event.a -> P (Event.customer e)) ->
  Forall (fun x => P (Event.customer x))
         (MarkovianQueueingSystem.queue (after s e)) /\
  forall dep, result s e = Return (Some dep) -> P (Event.customer dep).
Proof.
  intros Hq He.
  destruct (entered_spec s e) as [Hent Hcase].
  destruct (taken_spec s e) as [Htak Hdep].
  assert (Hupd : Forall (fun x => P (Event.customer x))
                        (MarkovianQueueingSystem.queue (updated s e))).
  { rewrite Hent. apply Forall_app. split; [assumption|].
    destruct Hcase as [-> | [-> Ha]]; constructor; auto. }
  rewrite Htak in Hupd. apply Forall_app in Hupd. destruct Hupd as [Ht Ha].
  split; [assumption|].
  intros dep Hr.
  destruct Hdep as [[_ Hret] | (a0 & Ha0 & Hc)].
  - rewrite Hr in Hret. discriminate.
  - rewrite (Hc dep Hr). rewrite Ha0 in Ht. now inversion Ht.
Qed.

Lemma arrivals_in_none (l : list (Event.event num)) :
  arrivals_in l <= 0 -> Forall (fun x => Event.t x = Event.d) l.
Proof.
  induction l as [|x l IH]; [constructor|].
  rewrite arrivals_in_cons. intros Hle.
  assert (0 <= arrivals_in l) by (unfold arrivals_in; lia).
  destruct (Event.t x) eqn:Hx; [lia|].
  constructor; [assumption|apply IH; lia].
Qed.

Lemma Forall_append_event (P : Event.event num -> Prop)
      (l : list (Event.event num)) (e : Event.event num) :
  Forall P l -> P e -> Forall P (_append_event l e).
Proof.
  intros Hl He. unfold _append_event.
  eapply Permutation_Forall; [symmetry; apply sort_by_time_Permutation|].
  apply Forall_app. split; [assumption|now constructor].
Qed.

(** X16.  Customer identifiers are issued in increasing order from 1: in
    every frame the loop passes through, every event in the event list and
    every customer waiting carries an identifier between 1 and
    [total_number], at most one arrival is in the event list, and it carries
    [total_number] itself. *)
Theorem customer_ids (f : frame num) :
  visits f ->
  1 <= total_number f /\
  arrivals_in (_event_list (self f)) <= 1 /\
  Forall (fun x => 1 <= Event.customer x <= total_number f /\
                   (Event.t x = Event.a ->
                    Event.customer x = total_number f))
         (_event_list (self f)) /\
  Forall (fun x => 1 <= Event.customer x <= total_number f)
         (MarkovianQueueingSystem.queue (mqs (self f))).
Proof.
  induction 1 as [K0 mu0 q lambda_ times0 f o Hq Hs | f Hv IH].
  - unfold MarkovianQueueingSystem.init in Hq.
    destruct (K0 <? 2); [discriminate|]. injection Hq as <-.
    unfold start in Hs. cbn [_arrival_interval init _event_list] in Hs.
    destruct (Exponential.call _) as [x' [v|err]];
      injection Hs as <- _;
      cbn [self mqs total_number _event_list set_event_list
           set_arrival_interval init MarkovianQueueingSystem.fresh
           MarkovianQueueingSystem.queue].
    + split; [lia|]. split; [now rewrite arrivals_in_append|].
      split; [|constructor].
      apply Forall_append_event; [constructor|].
      cbn [Event.customer Event.init]. split; [lia|reflexivity].
    + split; [lia|]. split; [unfold arrivals_in; cbn; lia|].
      split; constructor.
  - destruct IH as (Htot & Hone & Hlist & Hqueue).
    destruct (_event_list (self f)) as [|event rest] eqn:Hl.
    { rewrite (iteration_empty f Hl). cbn [fst]. rewrite Hl.
      now repeat split. }
    rewrite (iteration_eq f event rest Hl). cbv zeta.
    inversion Hlist as [|? ? [Hev Hev_a] Hrest]; subst.
    rewrite arrivals_in_cons in Hone.
    destruct (call_customers (fun c => 1 <= c <= total_number f)
                             (mqs (self f)) event Hqueue (fun _ => Hev))
      as [Hq' Hdep].
    assert (Hnonneg : 0 <= arrivals_in rest) by (unfold arrivals_in; lia).
    destruct (Event.t event) eqn:Het.
    + (* an arrival was fed: the next identifier is issued *)
      assert (Hds : Forall (fun x => Event.t x = Event.d) rest)
        by (apply arrivals_in_none; lia).
      assert (Hpend :
        Forall (fun x => 1 <= Event.customer x <= total_number f + 1 /\
                         (Event.t x = Event.a ->
                          Event.customer x = total_number f + 1))
          match result (mqs (self f)) event with
          | Return (Some departure_event) =>
              _append_event rest departure_event
          | _ => rest
          end).
      { assert (Hrest' :
          Forall (fun x => 1 <= Event.customer x <= total_number f + 1 /\
                           (Event.t x = Event.a ->
                            Event.customer x = total_number f + 1)) rest).
        { rewrite Forall_forall in *. intros x Hx.
          destruct (Hrest x Hx) as [Hb _]. specialize (Hds x Hx).
          split; [lia|congruence]. }
        pose proof (result_is_departure (mqs (self f)) event) as Hkind.
        destruct (result (mqs (self f)) event) as [[dep|]|x];
          try assumption.
        apply Forall_append_event; [assumption|].
        specialize (Hdep dep eq_refl). specialize (Hkind dep eq_refl).
        split; [lia|congruence]. }
      assert (Hq'' :
        Forall (fun x => 1 <= Event.customer x <= total_number f + 1)
               (MarkovianQueueingSystem.queue (after (mqs (self f)) event))).
      { eapply Forall_impl; [|exact Hq']. cbv beta. intros; lia. }
      destruct (Exponential.call (_arrival_interval (self f)))
        as [x' [interval|err]];
        cbn [fst self mqs total_number _event_list set_event_list
             set_arrival_interval set_mqs].
      * split; [lia|].
        split; [rewrite arrivals_in_append, arrivals_in_pending;
                cbn [Event.t Event.init]; lia|].
        split; [|assumption].
        apply Forall_append_event; [assumption|].
        cbn [Event.customer Event.init]. split; [lia|reflexivity].
      * split; [lia|].
        split; [rewrite arrivals_in_pending; lia|]. now split.
    + (* a departure was fed *)
      cbn [fst self mqs total_number _event_list set_event_list set_mqs].
      split; [assumption|].
      split; [rewrite arrivals_in_pending; lia|].
      split; [|assumption].
      pose proof (result_is_departure (mqs (self f)) event) as Hkind.
      destruct (result (mqs (self f)) event) as [[dep|]|x];
        try assumption.
      apply Forall_append_event; [assumption|].
      specialize (Hdep dep eq_refl). specialize (Hkind dep eq_refl).
      split; [lia|congruence].
Qed.

End Customer_ids.

(** ** The further properties on concrete inputs *)

Lemma advance_injective_witness :
  advance (num := Q) (calls (num := Q) 1)
  = advance (num := Q) {| Uniform.seed := 20739838 |} /\
  calls (num := Q) 1 = {| Uniform.seed := 20739838 |}.
Proof.
  split; [reflexivity|].
  apply (advance_injective (num := Q)); [| |reflexivity];
    split; reflexivity.
Defined.

(** With [K = 2]: one usable server for the empty system, two with two
    customers. *)
Lemma usable_server_monotone_witness :
  exists u1 u2,
    MarkovianQueueingSystem.usable_server Sample.mqs = Some u1 /\
    MarkovianQueueingSystem.usable_server Sample.busy = Some u2 /\
    1 <= u1 <= u2 /\ u2 <= 2 /\
    (u1 = 2 <->
     MarkovianQueueingSystem.K Sample.mqs
     <= MarkovianQueueingSystem.customer_number Sample.mqs).
Proof.
  apply (usable_server_monotone Sample.mqs Sample.busy).
  - vm_compute. discriminate.
  - reflexivity.
  - vm_compute. discriminate.
  - vm_compute. discriminate.
Defined.

Lemma departure_frame_witness :
  result Sample.busy (Sample.departure (5 # 2) 1) <> Raise CustomerBlocked /\
  MarkovianQueueingSystem._uniform
    (after Sample.busy (Sample.departure (5 # 2) 1))
  = MarkovianQueueingSystem._uniform Sample.busy /\
  MarkovianQueueingSystem.blocked_number
    (after Sample.busy (Sample.departure (5 # 2) 1))
  = MarkovianQueueingSystem.blocked_number Sample.busy /\
  MarkovianQueueingSystem._used_server
    (updated Sample.busy (Sample.departure (5 # 2) 1))
  = MarkovianQueueingSystem._used_server Sample.busy - 1 /\
  MarkovianQueueingSystem.queue
    (updated Sample.busy (Sample.departure (5 # 2) 1))
  = MarkovianQueueingSystem.queue Sample.busy.
Proof.
  apply departure_frame. reflexivity.
Defined.

(** Of three arrivals fed to the system with [K = 4], the first is taken into
    service and the other two wait, in order. *)
Lemma waiting_queue_fifo_witness :
  MarkovianQueueingSystem.queue Trial.mqs
  ++ entered_run Trial.mqs [Sample.first; Sample.second; Sample.third]
  = taken_run Trial.mqs [Sample.first; Sample.second; Sample.third]
    ++ MarkovianQueueingSystem.queue
         (run Trial.mqs [Sample.first; Sample.second; Sample.third]) /\
  taken_run Trial.mqs [Sample.first; Sample.second; Sample.third]
  = [Sample.first] /\
  MarkovianQueueingSystem.queue
    (run Trial.mqs [Sample.first; Sample.second; Sample.third])
  = [Sample.second; Sample.third].
Proof.
  split; [|split; reflexivity].
  apply (proj2 (waiting_queue_fifo (num := Q))).
Defined.

Lemma driven_queued :
  driven Trial.queued
         (0 + returned (result Trial.mqs Sample.first)
          + returned (result (after Trial.mqs Sample.first) Sample.second)).
Proof.
  unfold Trial.queued.
  apply driven_arrival; [|reflexivity].
  apply driven_arrival; [|reflexivity].
  apply (driven_init 4 (3 # 1)%Q). reflexivity.
Defined.

Lemma busy_servers_outstanding_witness :
  MarkovianQueueingSystem._used_server Trial.queued = 1 /\
  0 <= MarkovianQueueingSystem._used_server Trial.queued
  <= MarkovianQueueingSystem.m.
Proof.
  destruct (busy_servers_outstanding _ _ driven_queued) as (Hn & Hb & _).
  split; [exact Hn|exact Hb].
Defined.

Lemma driven_call_outcome_witness :
  (exists o, result Trial.queued Sample.third = Return o) \/
  (Event.t Sample.third = Event.a /\
   result Trial.queued Sample.third = Raise CustomerBlocked).
Proof.
  apply (driven_call_outcome _ _ Sample.third driven_queued).
  - reflexivity.
  - left. reflexivity.
Defined.

(** The second customer waits while the only usable server is busy. *)
Lemma nobody_waits_idle_witness :
  MarkovianQueueingSystem.queue Trial.queued = [Sample.second] /\
  MarkovianQueueingSystem.idle_server Trial.queued = Return 0.
Proof.
  split; [reflexivity|].
  apply (nobody_waits_idle _ _ driven_queued); [reflexivity|].
  vm_compute. discriminate.
Defined.

(** An arrival at time 1 goes behind the departure at time 1 and in front of
    the arrival at time 2. *)
Lemma append_event_sorted_witness :
  EventQueue.time_sorted Trial.listed /\
  exists l1 l2,
    Trial.listed = l1 ++ l2 /\
    Simulator._append_event Trial.listed Trial.late = l1 ++ Trial.late :: l2 /\
    Forall (fun x => fltb (Event.time Trial.late) (Event.time x) = false) l1 /\
    Forall (fun x => fltb (Event.time Trial.late) (Event.time x) = true) l2.
Proof.
  assert (Hs : EventQueue.time_sorted Trial.listed).
  { repeat constructor. }
  split; [exact Hs|].
  exact (proj2 (proj2 (append_event_sorted Trial.listed Trial.late)) Hs).
Defined.

Lemma loop_stops_at_times_witness :
  snd (Simulator.loop 100 Trial.frame) = Some (Return tt) /\
  Simulator.departure_event_number (fst (Simulator.loop 100 Trial.frame)) = 3.
Proof.
  assert (Hs : snd (Simulator.loop 100 Trial.frame) = Some (Return tt))
    by (vm_compute; reflexivity).
  split; [exact Hs|].
  assert (Hl : Simulator.loop 100 Trial.frame
               = (fst (Simulator.loop 100 Trial.frame), Some (Return tt))).
  { rewrite <- Hs. apply surjective_pairing. }
  destruct (loop_stops_at_times 100 Trial.frame _ ltac:(vm_compute; discriminate) Hl)
    as [Hd Ht].
  rewrite Hd, Ht. reflexivity.
Defined.

Lemma visits_frame : Simulator.visits Trial.frame.
Proof.
  apply (Simulator.visits_start 4 (3 # 1)%Q Trial.mqs (18 # 5)%Q 3
                                Trial.frame
                                (snd (Simulator.start Trial.simulator))).
  - reflexivity.
  - apply surjective_pairing.
Defined.

Lemma loop_never_raises_witness :
  arrivals_in (Simulator._event_list (Simulator.self Trial.frame)) = 1 /\
  snd (Simulator.iteration Trial.frame) = Return tt /\
  (snd (Simulator.loop 2 Trial.frame) = None \/
   snd (Simulator.loop 2 Trial.frame) = Some (Return tt)).
Proof.
  destruct (loop_never_raises Trial.frame visits_frame eq_refl)
    as (Hone & Hit & Hloop).
  split; [exact Hone|]. split; [exact Hit|exact (Hloop 2%nat)].
Defined.

(** After two passes of the loop two arrivals have been fed and both
    customers are present. *)
Lemma customers_accounted_witness :
  Simulator.total_number
    (fst (Simulator.iteration (fst (Simulator.iteration Trial.frame)))) - 1
  = accounted
      (fst (Simulator.iteration (fst (Simulator.iteration Trial.frame)))).
Proof.
  apply customers_accounted; [|reflexivity].
  do 2 apply Simulator.visits_iteration. exact visits_frame.
Defined.

Lemma visits_time_sorted_witness :
  EventQueue.time_sorted
    (Simulator._event_list
       (Simulator.self (fst (Simulator.iteration Trial.frame)))).
Proof.
  apply (visits_time_sorted (fst (Simulator.iteration Trial.frame))).
  apply Simulator.visits_iteration. exact visits_frame.
Defined.

Lemma customer_ids_witness :
  1 <= Simulator.total_number (fst (Simulator.iteration Trial.frame)) /\
  arrivals_in
    (Simulator._event_list
       (Simulator.self (fst (Simulator.iteration Trial.frame)))) <= 1.
Proof.
  destruct (customer_ids (fst (Simulator.iteration Trial.frame)))
    as (H1 & H2 & _).
  - apply Simulator.visits_iteration. exact visits_frame.
  - split; [exact H1|exact H2].
Defined.
